(** * Commands-to-Top.GG (discord.js port): command synchronisation,
      Top.gg format conversion, publishing and the periodic timer.

    The development embeds [discordjs/index.js] and the second bot file of
    the repository, a variant without example commands.  The two files
    have the same [TopGGIntegration] class; their [CommandSyncer] classes
    differ: the one of [discordjs/index.js] merges the example commands
    into what it fetched and can fall back to individual creates, the one
    of the variant only re-registers what it fetched (it is [BareSyncer]
    below).

    JavaScript values are modelled by the shapes the code reads: a missing
    property is [None], an exception is a [Throw] completion carrying an
    [Error] with its message, and every call to the outside world (the
    discord.js REST client, the command manager, axios, the logger) is an
    entry of an interaction trace that records the request together with
    its answer.  The outside world answers a request as a function of the
    whole history, so nothing is assumed about it. *)

From Stdlib Require Import ZArith String.
From stdpp Require Import base option list strings pretty gmap.

Local Open Scope string_scope.
Local Open Scope list_scope.

(** * JavaScript preliminaries *)

Module Js.

(** An [Error] object; the code only ever reads [error.message]. *)
Record Error := { message : string }.

(** The outcome of evaluating an expression or awaiting a promise. *)
Inductive Completion (A : Type) : Type :=
| Normal (value : A)
| Throw (error : Error).
Global Arguments Normal {A} value.
Global Arguments Throw {A} error.

Definition is_normal {A} (c : Completion A) : bool :=
  match c with Normal _ => true | Throw _ => false end.

(** [haystack.includes(needle)] on strings. *)
Fixpoint includes (haystack needle : string) : bool :=
  String.prefix needle haystack ||
  match haystack with
  | EmptyString => false
  | String _ rest => includes rest needle
  end.

(** Truthiness of a possibly missing string: [undefined], [null] and the
    empty string are falsy. *)
Definition truthy (v : option string) : bool :=
  match v with
  | Some s => negb (String.eqb s "")
  | None => false
  end.

(** [v || fallback] for a possibly missing string. *)
Definition or_string (v : option string) (fallback : string) : string :=
  match v with
  | Some s => if String.eqb s "" then fallback else s
  | None => fallback
  end.

(** [v || false] for a possibly missing boolean. *)
Definition or_false (v : option bool) : bool :=
  match v with
  | Some b => b || false
  | None => false
  end.

(** [v && v.length > 0] for a possibly missing array. *)
Definition non_empty {A} (v : option (list A)) : bool :=
  match v with
  | Some l => (0 <? Z.of_nat (length l))%Z
  | None => false
  end.

(** [array.findIndex(p)]: the index of the first element satisfying [p],
    or [-1]. *)
Fixpoint findIndex_from {A} (p : A → bool) (l : list A) (i : Z) : Z :=
  match l with
  | [] => (-1)%Z
  | x :: rest => if p x then i else findIndex_from p rest (i + 1)%Z
  end.

Definition findIndex {A} (p : A → bool) (l : list A) : Z :=
  findIndex_from p l 0%Z.

(** The [TypeError] raised by reading a property of [null]. *)
Definition null_property_error (property : string) : Error :=
  {| message := "Cannot read properties of null (reading '" +:+ property +:+ "')" |}.

End Js.
Export Js.

(** * Data model *)

(** discord.js [ApplicationCommandType]. *)
Module ApplicationCommandType.
Definition ChatInput : Z := 1.
Definition User : Z := 2.
Definition Message : Z := 3.
Definition PrimaryEntryPoint : Z := 4.
End ApplicationCommandType.

(** A choice of an option: a name and a string or numeric value. *)
Inductive ChoiceValue :=
| ChoiceString (s : string)
| ChoiceNumber (n : Z).

Record Choice := { choice_name : string; choice_value : ChoiceValue }.

(** An option of a fetched application command (recursive for
    subcommands and subcommand groups). *)
#[warnings="-register-all"]
Inductive ApplicationCommandOption := {
  opt_name : string;
  opt_description : option string;
  opt_type : Z;
  opt_required : option bool;
  opt_choices : option (list Choice);
  opt_options : option (list ApplicationCommandOption)
}.

(** [defaultMemberPermissions]: a bit field, read only through
    [toString()]. *)
Record PermissionsBitField := { permissions_toString : string }.

(** An [ApplicationCommand] as handed out by
    [client.application.commands.fetch()]. *)
Record ApplicationCommand := {
  cmd_id : string;
  cmd_name : string;
  cmd_description : option string;
  cmd_type : Z;
  cmd_options : option (list ApplicationCommandOption);
  cmd_defaultMemberPermissions : option PermissionsBitField
}.

(** The option shape sent to Top.gg; an omitted property is [None]. *)
#[warnings="-register-all"]
Inductive TopGGOption := {
  tgo_name : string;
  tgo_description : string;
  tgo_type : Z;
  tgo_required : bool;
  tgo_choices : option (list Choice);
  tgo_options : option (list TopGGOption)
}.

(** The command shape sent to Top.gg. *)
Record TopGGCommand := {
  tg_id : string;
  tg_application_id : string;
  tg_name : string;
  tg_version : string;
  tg_type : Z;
  tg_description : string;
  tg_options : option (list TopGGOption);
  tg_default_member_permissions : option string
}.

(** A raw command object of the Discord REST API: what [rest.get] returns
    and what [SlashCommandBuilder.toJSON()] produces. *)
Record RestCommand := {
  rc_id : option string;
  rc_name : string;
  rc_description : string;
  rc_type : option Z
}.

(** [SlashCommandBuilder], with the two setters the bot uses. *)
Record SlashCommandBuilder := {
  sb_name : string;
  sb_description : string
}.

Definition newSlashCommandBuilder : SlashCommandBuilder :=
  {| sb_name := ""; sb_description := "" |}.

Definition setName (name : string) (b : SlashCommandBuilder) : SlashCommandBuilder :=
  {| sb_name := name; sb_description := sb_description b |}.

Definition setDescription (description : string) (b : SlashCommandBuilder) : SlashCommandBuilder :=
  {| sb_name := sb_name b; sb_description := description |}.

Definition toJSON (b : SlashCommandBuilder) : RestCommand :=
  {| rc_id := None;
     rc_name := sb_name b;
     rc_description := sb_description b;
     rc_type := Some ApplicationCommandType.ChatInput |}.

(** [Routes.applicationCommands] and [Routes.applicationGuildCommands]. *)
Inductive Route :=
| applicationCommands (applicationId : string)
| applicationGuildCommands (applicationId guildId : string).

(** The answer of [axios.post]. *)
Record Response := { status : Z; data : string }.

(** [client.application] is [null] until the client is ready. *)
Record ClientApplication := { app_id : string }.
Record Client := { application : option ClientApplication }.

(** * Interaction traces *)

(** The logger's levels. *)
Module Level.
Inductive t := info | warn | error.
End Level.

Definition Headers := list (string * string).

(** One interaction with the outside world, with its answer. *)
Inductive Event :=
| Log (level : Level.t) (text : string)
| RestGet (route : Route) (answer : Completion (list RestCommand))
| RestPut (route : Route) (body : list RestCommand)
    (answer : Completion (list RestCommand))
| RestPost (route : Route) (body : RestCommand) (answer : Completion RestCommand)
| CommandsFetch (answer : Completion (list ApplicationCommand))
| AxiosPost (url : string) (headers : Headers) (body : list TopGGCommand)
    (answer : Completion Response).

Definition Trace := list Event.

(** The outside world: how each request is answered, given everything
    that happened before it. *)
Record World := {
  rest_get : Trace → Route → Completion (list RestCommand);
  rest_put : Trace → Route → list RestCommand → Completion (list RestCommand);
  rest_post : Trace → Route → RestCommand → Completion RestCommand;
  commands_fetch : Trace → Completion (list ApplicationCommand);
  axios_post : Trace → string → Headers → list TopGGCommand → Completion Response
}.

(** An [async] computation: from the history so far to a completion and
    the interactions it added. *)
Definition Async (A : Type) : Type := Trace → Completion A * Trace.

Definition ret {A} (a : A) : Async A := λ _, (Normal a, []).

Definition throw {A} (e : Error) : Async A := λ _, (Throw e, []).

(** Sequencing: [await] the first computation, then run the rest on the
    extended history; an exception skips the rest. *)
Definition bind {A B} (k : A → Async B) (m : Async A) : Async B :=
  λ h,
    match m h with
    | (Normal a, es) => let '(r, es') := k a (h ++ es) in (r, es ++ es')
    | (Throw e, es) => (Throw e, es)
    end.

#[export] Instance async_ret : MRet Async := @ret.
#[export] Instance async_bind : MBind Async := @bind.

(** [try { body } catch (error) { handler }] *)
Definition try_catch {A} (body : Async A) (handler : Error → Async A) : Async A :=
  λ h,
    match body h with
    | (Normal a, es) => (Normal a, es)
    | (Throw e, es) => let '(r, es') := handler e (h ++ es) in (r, es ++ es')
    end.

(** [for (const x of xs) { body }] where the body updates a local. *)
Fixpoint for_of_acc {A S} (xs : list A) (acc : S) (body : S → A → Async S) : Async S :=
  match xs with
  | [] => ret acc
  | x :: rest => acc' ← body acc x; for_of_acc rest acc' body
  end.

Definition logger (level : Level.t) (text : string) : Async unit :=
  λ _, (Normal tt, [Log level text]).

(** [this.client.application.id] *)
Definition application_id (client : Client) : Async string :=
  match application client with
  | Some app => ret (app_id app)
  | None => throw (null_property_error "id")
  end.

(** * TopGGIntegration *)

Module TopGGIntegration.

(** The fields the constructor sets: [client] and [commandsToken] (read
    from the environment, possibly unset).  [periodicCommandsInterval],
    assigned by [startPeriodicUpdates], is part of
    [PeriodicUpdates.State]. *)
Record t := {
  client : Client;
  commandsToken : option string
}.

Definition url : string := "https://top.gg/api/v1/projects/@me/commands".

Definition headers (token : string) : Headers :=
  [("Authorization", "Bearer " +:+ token);
   ("Content-Type", "application/json")].

(** [convertOptionToTopGGFormat(option)] *)
Fixpoint convertOptionToTopGGFormat (option : ApplicationCommandOption) : TopGGOption :=
  {| tgo_name := opt_name option;
     tgo_description := or_string (opt_description option) "Parameter";
     tgo_type := opt_type option;
     tgo_required := or_false (opt_required option);
     tgo_choices :=
       if non_empty (opt_choices option) then opt_choices option else None;
     tgo_options :=
       match opt_options option with
       | Some subOptions =>
           if (0 <? Z.of_nat (length subOptions))%Z
           then Some (List.map convertOptionToTopGGFormat subOptions)
           else None
       | None => None
       end |}.

Section WithWorld.
Context (world : World).

(** [this.client.application.commands.fetch()] *)
Definition fetch_commands (client : Client) : Async (list ApplicationCommand) :=
  match application client with
  | Some _ => λ h, (commands_fetch world h, [CommandsFetch (commands_fetch world h)])
  | None => throw (null_property_error "commands")
  end.

(** [axios.post(url, data, { headers })] *)
Definition axios_post_call (u : string) (hs : Headers) (body : list TopGGCommand)
  : Async Response :=
  λ h, (axios_post world h u hs body, [AxiosPost u hs body (axios_post world h u hs body)]).

(** [convertCommandToTopGGFormat(command)]; [None] is [null]. *)
Definition convertCommandToTopGGFormat (this : t) (command : ApplicationCommand)
  : Async (option TopGGCommand) :=
  try_catch
    (applicationId ← application_id (client this);
     let '(type, description, options) :=
       if (cmd_type command =? ApplicationCommandType.User)%Z
          || (cmd_type command =? ApplicationCommandType.Message)%Z
       then (cmd_type command, "", None)
       else (1%Z,
             or_string (cmd_description command) "No description",
             match cmd_options command with
             | Some options =>
                 if (0 <? Z.of_nat (length options))%Z
                 then Some (List.map convertOptionToTopGGFormat options)
                 else None
             | None => None
             end) in
     let default_member_permissions :=
       match cmd_defaultMemberPermissions command with
       | Some permissions => Some (permissions_toString permissions)
       | None => None
       end in
     mret (Some {| tg_id := cmd_id command;
                  tg_application_id := applicationId;
                  tg_name := cmd_name command;
                  tg_version := "1";
                  tg_type := type;
                  tg_description := description;
                  tg_options := options;
                  tg_default_member_permissions := default_member_permissions |}))
    (λ error,
       logger Level.error
         ("❌ Error converting command " +:+ cmd_name command
            +:+ " to Top.gg format: " +:+ message error);;
       mret None).

(** [getBotCommandsForTopGG()] *)
Definition getBotCommandsForTopGG (this : t) : Async (list TopGGCommand) :=
  try_catch
    (commands ← fetch_commands (client this);
     for_of_acc commands []
       (λ commandsList command,
          try_catch
            (commandData ← convertCommandToTopGGFormat this command;
             match commandData with
             | Some payload => mret (commandsList ++ [payload])
             | None => mret commandsList
             end)
            (λ error,
               logger Level.error
                 ("❌ Error converting command " +:+ cmd_name command
                    +:+ ": " +:+ message error);;
               mret commandsList)))
    (λ error,
       logger Level.error ("❌ Error fetching bot commands: " +:+ message error);;
       mret []).

(** [postCommandsToTopGG()] *)
Definition postCommandsToTopGG (this : t) : Async bool :=
  if negb (truthy (commandsToken this)) then
    logger Level.error "Commands token not found. Set COMMANDS_TK in environment.";;
    mret false
  else
    let headers := headers (default "" (commandsToken this)) in
    try_catch
      (commandsData ← getBotCommandsForTopGG this;
       if (Z.of_nat (length commandsData) =? 0)%Z then
         logger Level.warn "⚠️ No commands found to post to Top.gg";;
         mret false
       else
         response ← axios_post_call url headers commandsData;
         if (status response =? 200)%Z || (status response =? 204)%Z then
           logger Level.info
             ("✅ Successfully posted " +:+ pretty (length commandsData)
                +:+ " commands to Top.gg");;
           mret true
         else
           logger Level.error
             ("❌ Failed to post commands to Top.gg: " +:+ pretty (status response)
                +:+ " - " +:+ data response);;
           mret false)
      (λ error,
         logger Level.error ("❌ Error posting commands to Top.gg: " +:+ message error);;
         mret false).

End WithWorld.
End TopGGIntegration.

(** * The timer behind the periodic updates *)

Module PeriodicUpdates.

(** What [setInterval] returns; every handle is truthy. *)
Definition Handle := positive.

(** The runtime's table of running intervals (handle and delay in
    milliseconds) and the next handle it will hand out. *)
Record Runtime := {
  intervals : gmap positive Z;
  next_handle : Handle
}.

(** The runtime, the object's [periodicCommandsInterval] property
    ([None] while it was never assigned) and the number of times an
    interval callback has called [postCommandsToTopGG]: the publish
    invocations that [startPeriodicUpdates] schedules. *)
Record State := {
  runtime : Runtime;
  periodicCommandsInterval : option Handle;
  publishes : nat
}.

Definition setInterval (delay : Z) (rt : Runtime) : Handle * Runtime :=
  (next_handle rt,
   {| intervals := <[next_handle rt := delay]> (intervals rt);
      next_handle := Pos.succ (next_handle rt) |}).

Definition clearInterval (handle : Handle) (rt : Runtime) : Runtime :=
  {| intervals := delete handle (intervals rt);
     next_handle := next_handle rt |}.

(** [startPeriodicUpdates()]: the new state and the lines logged. *)
Definition startPeriodicUpdates (s : State) : State * list Event :=
  let '(handle, rt) := setInterval 86400000 (runtime s) in
  ({| runtime := rt;
      periodicCommandsInterval := Some handle;
      publishes := publishes s |},
   [Log Level.info "✅ Started periodic Top.gg command updates (every 24 hours)"]).

(** [stopPeriodicUpdates()] *)
Definition stopPeriodicUpdates (s : State) : State * list Event :=
  match periodicCommandsInterval s with
  | Some handle =>
      ({| runtime := clearInterval handle (runtime s);
          periodicCommandsInterval := periodicCommandsInterval s;
          publishes := publishes s |},
       [Log Level.info "🛑 Stopped periodic Top.gg command updates"])
  | None => (s, [])
  end.

(** The delay of interval [handle] has elapsed: the runtime runs its
    callback, which calls [postCommandsToTopGG], if the interval is still
    in the table. *)
Definition interval_elapsed (handle : Handle) (s : State) : State :=
  match intervals (runtime s) !! handle with
  | Some _ =>
      {| runtime := runtime s;
         periodicCommandsInterval := periodicCommandsInterval s;
         publishes := S (publishes s) |}
  | None => s
  end.

(** What can happen to the object, in the order it happens. *)
Inductive Action :=
| Start
| Stop
| Elapsed (handle : Handle).

Definition step (s : State) (a : Action) : State :=
  match a with
  | Start => (startPeriodicUpdates s).1
  | Stop => (stopPeriodicUpdates s).1
  | Elapsed handle => interval_elapsed handle s
  end.

Definition run (s : State) (actions : list Action) : State :=
  foldl step s actions.

(** A freshly constructed object in a runtime without intervals. *)
Definition initial (first : Handle) : State :=
  {| runtime := {| intervals := ∅; next_handle := first |};
     periodicCommandsInterval := None;
     publishes := 0 |}.

(** No interval is running. *)
Definition idle (s : State) : Prop := intervals (runtime s) = ∅.

(** The object was never started. *)
Definition never_started (s : State) : Prop :=
  idle s ∧ periodicCommandsInterval s = None.

(** The object holds [handle] and no other interval is running. *)
Definition started_once (handle : Handle) (s : State) : Prop :=
  periodicCommandsInterval s = Some handle
  ∧ ∀ other, other ≠ handle → intervals (runtime s) !! other = None.

End PeriodicUpdates.

(** * The discord.js REST client *)

Module Rest.
Section WithWorld.
Context (world : World).

(** [rest.get(route)] *)
Definition get (route : Route) : Async (list RestCommand) :=
  λ h, (rest_get world h route, [RestGet route (rest_get world h route)]).

(** [rest.put(route, { body })] *)
Definition put (route : Route) (body : list RestCommand) : Async (list RestCommand) :=
  λ h, (rest_put world h route body, [RestPut route body (rest_put world h route body)]).

(** [rest.post(route, { body })] *)
Definition post (route : Route) (body : RestCommand) : Async RestCommand :=
  λ h, (rest_post world h route body, [RestPost route body (rest_post world h route body)]).

End WithWorld.

(** The route of a scope, as each call site computes it: the guild route
    when [guildId] is truthy, the global route otherwise. *)
Definition scope_route (client : Client) (guildId : option string) : Async Route :=
  if truthy guildId then
    applicationId ← application_id client;
    mret (applicationGuildCommands applicationId (default "" guildId))
  else
    applicationId ← application_id client;
    mret (applicationCommands applicationId).

End Rest.

(** * CommandSyncer of [discordjs/index.js] *)

Module CommandSyncer.

(** The two builders of the example commands. *)
Definition commands : list SlashCommandBuilder :=
  [setDescription "Check bot latency" (setName "ping" newSlashCommandBuilder);
   setDescription "Get bot information" (setName "info" newSlashCommandBuilder)].

Definition newCommands : list RestCommand := List.map toJSON commands.

(** One round of the merge loop: replace the first command of the same
    name, or push. *)
Definition merge_step (allCommands : list RestCommand) (newCmd : RestCommand)
  : Async (list RestCommand) :=
  let existingIndex :=
    findIndex (λ cmd, String.eqb (rc_name cmd) (rc_name newCmd)) allCommands in
  if (0 <=? existingIndex)%Z then
    logger Level.info ("🔄 Updating existing command: " +:+ rc_name newCmd);;
    mret (<[Z.to_nat existingIndex := newCmd]> allCommands)
  else
    logger Level.info ("➕ Adding new command: " +:+ rc_name newCmd);;
    mret (allCommands ++ [newCmd]).

Section WithWorld.
Context (world : World).

(** [createCommandsIndividually(guildId)] *)
Definition createCommandsIndividually (client : Client) (guildId : option string)
  : Async nat :=
  try_catch
    (for_of_acc commands 0
       (λ createdCount command,
          try_catch
            (route ← Rest.scope_route client guildId;
             _ ← Rest.post world route (toJSON command);
             logger Level.info ("✅ Created command: " +:+ sb_name command);;
             mret (S createdCount))
            (λ cmdError,
               (if includes (message cmdError) "already exists" then
                  logger Level.info
                    ("ℹ️ Command " +:+ sb_name command +:+ " already exists, skipping")
                else
                  logger Level.error
                    ("❌ Failed to create command " +:+ sb_name command
                       +:+ ": " +:+ message cmdError));;
               mret createdCount)))
    (λ error,
       logger Level.error
         ("❌ Failed to create commands individually: " +:+ message error);;
       mret 0).

(** The first [try] of [syncCommands]: the existing commands, [[]] when
    they cannot be fetched. *)
Definition fetch_existing (client : Client) (guildId : option string)
  : Async (list RestCommand) :=
  try_catch
    (route ← Rest.scope_route client guildId;
     existingCommands ← Rest.get world route;
     logger Level.info
       ("📋 Found " +:+ pretty (length existingCommands) +:+ " existing commands");;
     mret existingCommands)
    (λ fetchError,
       logger Level.warn
         ("⚠️ Could not fetch existing commands: " +:+ message fetchError);;
       mret []).

(** [syncCommands(guildId)] *)
Definition syncCommands (client : Client) (guildId : option string) : Async nat :=
  try_catch
    (existingCommands ← fetch_existing client guildId;
     allCommands ← for_of_acc newCommands existingCommands merge_step;
     route ← Rest.scope_route client guildId;
     synced ← Rest.put world route allCommands;
     (if truthy guildId then
        logger Level.info
          ("✅ Synced " +:+ pretty (length synced) +:+ " commands to guild "
             +:+ default "" guildId)
      else
        logger Level.info
          ("✅ Synced " +:+ pretty (length synced) +:+ " commands globally"));;
     mret (length synced))
    (λ error,
       logger Level.error ("❌ Failed to sync commands: " +:+ message error);;
       if includes (message error) "Entry Point" then
         logger Level.info "🔄 Attempting individual command registration...";;
         createCommandsIndividually client guildId
       else
         mret 0).

End WithWorld.
End CommandSyncer.

(** * CommandSyncer of the variant without example commands

    The second bot file defines no desired commands and no
    [createCommandsIndividually]: its [syncCommands] fetches and overwrites
    inside one [try]. *)

Module BareSyncer.
Section WithWorld.
Context (world : World).

(** [syncCommands(guildId)]: fetch, then overwrite with what was
    fetched. *)
Definition syncCommands (client : Client) (guildId : option string) : Async nat :=
  try_catch
    (try_catch
       (route ← Rest.scope_route client guildId;
        existingCommands ← Rest.get world route;
        logger Level.info
          ("📋 Found " +:+ pretty (length existingCommands) +:+ " existing commands");;
        route ← Rest.scope_route client guildId;
        synced ← Rest.put world route existingCommands;
        (if truthy guildId then
           logger Level.info
             ("✅ Synced " +:+ pretty (length synced) +:+ " commands to guild "
                +:+ default "" guildId)
         else
           logger Level.info
             ("✅ Synced " +:+ pretty (length synced) +:+ " commands globally"));;
        mret (length synced))
       (λ error,
          logger Level.error ("❌ Error syncing commands: " +:+ message error);;
          mret 0))
    (λ error,
       logger Level.error ("❌ Failed to sync commands: " +:+ message error);;
       mret 0).

End WithWorld.
End BareSyncer.

(** * The merge of [syncCommands], as a function on lists *)

Module Merge.

(** What one round of the merge loop leaves in [allCommands]. *)
Definition upsert (allCommands : list RestCommand) (newCmd : RestCommand)
  : list RestCommand :=
  let existingIndex :=
    findIndex (λ cmd, String.eqb (rc_name cmd) (rc_name newCmd)) allCommands in
  if (0 <=? existingIndex)%Z then <[Z.to_nat existingIndex := newCmd]> allCommands
  else allCommands ++ [newCmd].

(** What the whole loop leaves in [allCommands]. *)
Definition mergeCommands (existing desired : list RestCommand) : list RestCommand :=
  foldl upsert existing desired.

(** [i] is the position of the first command of [l] named [name]. *)
Definition first_named (name : string) (l : list RestCommand) (i : nat) : Prop :=
  (∃ c, l !! i = Some c ∧ rc_name c = name) ∧
  ∀ j c, j < i → l !! j = Some c → rc_name c ≠ name.

(** The first command named [name] among [ds]. *)
Definition by_name (name : string) (ds : list RestCommand) : option RestCommand :=
  head (filter (λ d, rc_name d = name) ds).

(** The merge policy of the specification, for a desired list, the list
    that was fetched and the combined list that is sent. *)
Record merge_policy (desired existing combined : list RestCommand) : Prop := {
  (** a desired command whose name exists takes the place of the first
      existing command of that name *)
  replaced_in_place : ∀ d i,
    d ∈ desired → first_named (rc_name d) existing i → combined !! i = Some d;
  (** every other existing command stays where it was *)
  others_preserved : ∀ i c,
    existing !! i = Some c →
    rc_name c ∉ rc_name <$> desired ∨ ¬ first_named (rc_name c) existing i →
    combined !! i = Some c;
  (** what follows the existing positions is exactly the desired commands
      whose name does not exist, in their order: nothing is added for a
      name that exists *)
  missing_appended :
    drop (length existing) combined
    = filter (λ d, rc_name d ∉ rc_name <$> existing) desired;
  (** the names at the existing positions are the existing names *)
  names_stable :
    rc_name <$> take (length existing) combined = rc_name <$> existing
}.

End Merge.

(** * Reading a run *)

Module Observe.

(** [wp m h Q]: running [m] after history [h] ends in a completion and
    adds interactions that satisfy [Q]. *)
Definition wp {A} (m : Async A) (h : Trace) (Q : Completion A → Trace → Prop) : Prop :=
  Q (m h).1 (m h).2.

(** The route the calls of a scope go to, for a ready client. *)
Definition route_for (app : ClientApplication) (guildId : option string) : Route :=
  if truthy guildId then applicationGuildCommands (app_id app) (default "" guildId)
  else applicationCommands (app_id app).

(** The bulk overwrites of a trace. *)
Definition puts (es : Trace)
  : list (Route * list RestCommand * Completion (list RestCommand)) :=
  omap (λ ev, match ev with RestPut r b a => Some (r, b, a) | _ => None end) es.

(** The individual creates of a trace. *)
Definition posts (es : Trace) : list (Route * RestCommand * Completion RestCommand) :=
  omap (λ ev, match ev with RestPost r b a => Some (r, b, a) | _ => None end) es.

(** The POSTs to the directory of a trace. *)
Definition directory_posts (es : Trace)
  : list (string * Headers * list TopGGCommand * Completion Response) :=
  omap (λ ev, match ev with AxiosPost u hs b a => Some (u, hs, b, a) | _ => None end) es.

Definition is_log (ev : Event) : Prop :=
  match ev with Log _ _ => True | _ => False end.

End Observe.

(** * The option conversion of the specification *)

Module ConverterSpec.

(** [converts_option option converted]: [converted] is what the
    specification asks for [option], at every nesting depth. *)
#[warnings="-register-all"]
Inductive converts_option : ApplicationCommandOption → TopGGOption → Prop :=
| converts_option_intro option converted :
    tgo_name converted = opt_name option →
    tgo_type converted = opt_type option →
    (∀ required, opt_required option = Some required →
       tgo_required converted = required) →
    (opt_required option = None → tgo_required converted = false) →
    (∀ description, opt_description option = Some description →
       description ≠ "" → tgo_description converted = description) →
    (opt_description option = None ∨ opt_description option = Some "" →
       tgo_description converted = "Parameter") →
    (∀ choices, opt_choices option = Some choices → choices ≠ [] →
       tgo_choices converted = Some choices) →
    (opt_choices option = None ∨ opt_choices option = Some [] →
       tgo_choices converted = None) →
    (∀ subOptions, opt_options option = Some subOptions → subOptions ≠ [] →
       ∃ convertedSubOptions,
         tgo_options converted = Some convertedSubOptions
         ∧ Forall2 converts_option subOptions convertedSubOptions) →
    (opt_options option = None ∨ opt_options option = Some [] →
       tgo_options converted = None) →
    converts_option option converted.

End ConverterSpec.

(** * Concrete clients, commands and worlds *)

Module Example.

Definition app : ClientApplication := {| app_id := "1042" |}.

Definition ready_client : Client := {| application := Some app |}.

Definition bot : TopGGIntegration.t :=
  {| TopGGIntegration.client := ready_client;
     TopGGIntegration.commandsToken := Some "topgg-v1-token" |}.

Definition bot_without_token : TopGGIntegration.t :=
  {| TopGGIntegration.client := ready_client;
     TopGGIntegration.commandsToken := None |}.

(** A protected command registered by the platform. *)
Definition entrypoint : RestCommand :=
  {| rc_id := Some "7001";
     rc_name := "entrypoint";
     rc_description := "Launch the activity";
     rc_type := Some ApplicationCommandType.PrimaryEntryPoint |}.

(** An earlier registration of [ping]. *)
Definition old_ping : RestCommand :=
  {| rc_id := Some "7002";
     rc_name := "ping";
     rc_description := "Pong";
     rc_type := Some ApplicationCommandType.ChatInput |}.

(** A slash command with a subcommand that has one option with choices. *)
Definition unit_option : ApplicationCommandOption :=
  {| opt_name := "unit";
     opt_description := None;
     opt_type := 3;
     opt_required := Some true;
     opt_choices := Some [{| choice_name := "Celsius"; choice_value := ChoiceString "c" |}];
     opt_options := None |}.

Definition show_option : ApplicationCommandOption :=
  {| opt_name := "show";
     opt_description := Some "Show the forecast";
     opt_type := 1;
     opt_required := None;
     opt_choices := None;
     opt_options := Some [unit_option] |}.

Definition weather : ApplicationCommand :=
  {| cmd_id := "8001";
     cmd_name := "weather";
     cmd_description := None;
     cmd_type := ApplicationCommandType.ChatInput;
     cmd_options := Some [show_option];
     cmd_defaultMemberPermissions := None |}.

(** A user context-menu command. *)
Definition report_user : ApplicationCommand :=
  {| cmd_id := "8002";
     cmd_name := "Report user";
     cmd_description := Some "";
     cmd_type := ApplicationCommandType.User;
     cmd_options := None;
     cmd_defaultMemberPermissions := Some {| permissions_toString := "8" |} |}.

(** A platform and a directory that accept everything. *)
Definition accepting : World :=
  {| rest_get := λ _ _, Normal [entrypoint];
     rest_put := λ _ _ body, Normal body;
     rest_post := λ _ _ body, Normal body;
     commands_fetch := λ _, Normal [weather; report_user];
     axios_post := λ _ _ _ _, Normal {| status := 204; data := "" |} |}.

(** A platform that refuses the bulk overwrite because of its entry
    point command and already has a [ping]. *)
Definition protecting : World :=
  {| rest_get := λ _ _, Normal [entrypoint; old_ping];
     rest_put := λ _ _ _,
       Throw {| message := "Invalid Form Body: cannot remove the Entry Point command" |};
     rest_post := λ _ _ body,
       if String.eqb (rc_name body) "ping"
       then Throw {| message := "Command with this name already exists" |}
       else Normal body;
     commands_fetch := λ _, Normal [weather; report_user];
     axios_post := λ _ _ _ _, Normal {| status := 500; data := "Internal Server Error" |} |}.

(** A platform whose command list cannot be fetched. *)
Definition unreachable : World :=
  {| rest_get := λ _ _, Throw {| message := "connect ETIMEDOUT" |};
     rest_put := λ _ _ body, Normal body;
     rest_post := λ _ _ body, Normal body;
     commands_fetch := λ _, Throw {| message := "connect ETIMEDOUT" |};
     axios_post := λ _ _ _ _, Throw {| message := "socket hang up" |} |}.

End Example.

(** * The REST requests of a run *)

Module Requests.

Inductive Kind := Get | Put | Post.

(** The REST request behind an interaction, if it is one. *)
Definition request (ev : Event) : option (Kind * Route) :=
  match ev with
  | RestGet route _ => Some (Get, route)
  | RestPut route _ _ => Some (Put, route)
  | RestPost route _ _ => Some (Post, route)
  | _ => None
  end.

(** The REST requests of a trace, in order. *)
Definition requests (es : Trace) : list (Kind * Route) := omap request es.

End Requests.

(** * Shapes of options and payloads *)

Module Shape.



(** A converted option in normal form, at every depth: a description, and
    no empty [choices] or [options] array. *)
#[warnings="-register-all"]
Inductive normalised : TopGGOption → Prop :=
| normalised_intro option :
    tgo_description option ≠ "" →
    tgo_choices option ≠ Some [] →
    tgo_options option ≠ Some [] →
    (∀ subOptions, tgo_options option = Some subOptions →
       Forall normalised subOptions) →
    normalised option.

(** What every payload sent to the directory looks like. *)
Definition well_formed_payload (applicationId : string) (payload : TopGGCommand) : Prop :=
  tg_version payload = "1"
  ∧ tg_application_id payload = applicationId
  ∧ (tg_type payload = 1%Z ∨ tg_type payload = 2%Z ∨ tg_type payload = 3%Z)
  ∧ (tg_type payload = 1%Z → tg_description payload ≠ "")
  ∧ (tg_type payload ≠ 1%Z →
     tg_description payload = "" ∧ tg_options payload = None)
  ∧ tg_options payload ≠ Some []
  ∧ ∀ options, tg_options payload = Some options → Forall normalised options.

End Shape.

(** * Ways of using the periodic timer *)

Module Usage.
Import PeriodicUpdates.

(** [disciplined started actions]: the caller never starts an object
    that is started; [started] tells whether it is at the beginning. *)
Fixpoint disciplined (started : bool) (actions : list Action) : bool :=
  match actions with
  | [] => true
  | Start :: rest => negb started && disciplined true rest
  | Stop :: rest => disciplined false rest
  | Elapsed _ :: rest => disciplined started rest
  end.

(** Whether the caller's last call, if any, was a start. *)
Fixpoint started_after (started : bool) (actions : list Action) : bool :=
  match actions with
  | [] => started
  | Start :: rest => started_after true rest
  | Stop :: rest => started_after false rest
  | Elapsed _ :: rest => started_after started rest
  end.

(** The number of [Elapsed] happenings of an execution. *)
Fixpoint elapsed_count (actions : list Action) : nat :=
  match actions with
  | [] => 0
  | Elapsed _ :: rest => S (elapsed_count rest)
  | _ :: rest => elapsed_count rest
  end.

(** The handles the runtime has handed out are below [next_handle]. *)
Definition fresh (s : State) : Prop :=
  (∀ handle delay, intervals (runtime s) !! handle = Some delay →
     (handle < next_handle (runtime s))%positive)
  ∧ ∀ handle, periodicCommandsInterval s = Some handle →
      (handle < next_handle (runtime s))%positive.

End Usage.

(** * The bot shell: the [clientReady] handler and the timer callbacks *)

Module Shell.

(** [client.user], [null] until the client is ready. *)
Record ClientUser := { tag : string; user_id : string }.

(** The client as the [clientReady] handler reads it: the application,
    the user and [client.guilds.cache.size]. *)
Record ShellClient := {
  base : Client;
  user : option ClientUser;
  guilds_cache_size : nat
}.

(** What the handler leaves behind: the [TopGGIntegration] object it
    made, the timer state of that object, and the delays of the one-shot
    timers it set with [setTimeout] (the callback of each is
    [initial_publish] on the object). *)
Record Ready := {
  topgg : TopGGIntegration.t;
  timers : PeriodicUpdates.State;
  timeouts : list Z
}.

Section WithWorld.
Context (world : World).

(** The callback that [startPeriodicUpdates] hands to [setInterval]. *)
Definition periodic_update (this : TopGGIntegration.t) : Async unit :=
  try_catch
    (_ ← TopGGIntegration.postCommandsToTopGG world this; mret tt)
    (λ error,
       logger Level.error
         ("❌ Error in periodic command update: " +:+ message error)).

(** The callback that the [clientReady] handler hands to [setTimeout]. *)
Definition initial_publish (this : TopGGIntegration.t) : Async unit :=
  try_catch
    (_ ← TopGGIntegration.postCommandsToTopGG world this;
     logger Level.info "✅ Initial Top.gg commands posted")
    (λ error,
       logger Level.error
         ("❌ Failed to post initial Top.gg commands: " +:+ message error);;
       if includes (message error) "401" then
         logger Level.error
           "❌ Top.gg authentication failed. Please check your COMMANDS_TK token.";;
         logger Level.info
           "💡 Make sure your Top.gg token has the correct permissions and is not expired."
       else mret tt).

(** [await topgg.startPeriodicUpdates()] on the object's timer state. *)
Definition start_periodic (s : PeriodicUpdates.State) : Async PeriodicUpdates.State :=
  λ _, let '(started, lines) := PeriodicUpdates.startPeriodicUpdates s in
       (Normal started, lines).

(** The [clientReady] handler.  [syncCommands] is the [syncCommands] of
    the file's [CommandSyncer], called without a guild; [COMMANDS_TOKEN]
    is the module constant the constructor of [TopGGIntegration] reads;
    [rt] is the runtime's timer table when the handler starts. *)
Definition clientReady
    (syncCommands : Client → option string → Async nat)
    (COMMANDS_TOKEN : option string)
    (client : ShellClient) (rt : PeriodicUpdates.Runtime) : Async Ready :=
  match user client with
  | Some u =>
      logger Level.info
        ("🚀 Bot logged in as " +:+ tag u +:+ " (ID: " +:+ user_id u +:+ ")")
  | None => throw (null_property_error "tag")
  end;;
  logger Level.info
    ("📊 Connected to " +:+ pretty (guilds_cache_size client) +:+ " guilds");;
  let topgg :=
    {| TopGGIntegration.client := base client;
       TopGGIntegration.commandsToken := COMMANDS_TOKEN |} in
  let created :=
    {| PeriodicUpdates.runtime := rt;
       PeriodicUpdates.periodicCommandsInterval := None;
       PeriodicUpdates.publishes := 0 |} in
  try_catch
    (syncedCount ← syncCommands (base client) None;
     logger Level.info
       ("✅ Command sync completed: " +:+ pretty syncedCount +:+ " commands"))
    (λ error,
       logger Level.error ("❌ Command sync failed: " +:+ message error);;
       try_catch
         (existingCommands ← TopGGIntegration.fetch_commands world (base client);
          logger Level.info
            ("📋 Found " +:+ pretty (length existingCommands)
               +:+ " existing commands"))
         (λ fetchError,
            logger Level.error
              ("❌ Failed to fetch existing commands: " +:+ message fetchError)));;
  timers ← try_catch
    (started ← start_periodic created;
     logger Level.info "✅ Top.gg integration started";;
     mret started)
    (λ error,
       logger Level.error ("❌ Top.gg integration failed: " +:+ message error);;
       mret created);
  mret {| topgg := topgg; timers := timers; timeouts := [2000%Z] |}.

(** The handler of [discordjs/index.js] and the one of the variant. *)
Definition clientReady_index :=
  clientReady (CommandSyncer.syncCommands world).

Definition clientReady_bare :=
  clientReady (BareSyncer.syncCommands world).

End WithWorld.

(** The two lines the handler logs first. *)
Definition greeting (client : ShellClient) (u : ClientUser) : Trace :=
  [Log Level.info
     ("🚀 Bot logged in as " +:+ tag u +:+ " (ID: " +:+ user_id u +:+ ")");
   Log Level.info
     ("📊 Connected to " +:+ pretty (guilds_cache_size client) +:+ " guilds")].

(** The lines it logs after a sync that returned [count]. *)
Definition closing (count : nat) : Trace :=
  [Log Level.info ("✅ Command sync completed: " +:+ pretty count +:+ " commands");
   Log Level.info "✅ Started periodic Top.gg command updates (every 24 hours)";
   Log Level.info "✅ Top.gg integration started"].

(** A new [TopGGIntegration] object with one 24-hour interval added to
    the timer table [rt], and one 2-second timeout. *)
Definition scheduled (COMMANDS_TOKEN : option string) (client : ShellClient)
    (rt : PeriodicUpdates.Runtime) : Ready :=
  {| topgg := {| TopGGIntegration.client := base client;
                 TopGGIntegration.commandsToken := COMMANDS_TOKEN |};
     timers :=
       {| PeriodicUpdates.runtime :=
            {| PeriodicUpdates.intervals :=
                 <[PeriodicUpdates.next_handle rt := 86400000%Z]>
                   (PeriodicUpdates.intervals rt);
               PeriodicUpdates.next_handle :=
                 Pos.succ (PeriodicUpdates.next_handle rt) |};
          PeriodicUpdates.periodicCommandsInterval :=
            Some (PeriodicUpdates.next_handle rt);
          PeriodicUpdates.publishes := 0 |};
     timeouts := [2000%Z] |}.

(** An interaction with the platform's REST API, or a logged line. *)
Definition platform_only (ev : Event) : Prop :=
  Observe.is_log ev ∨ is_Some (Requests.request ev).

End Shell.

(** * More concrete clients and worlds *)

Module Deployment.

(** A client that is not ready: [client.application] is [null]. *)
Definition unready_client : Client := {| application := None |}.

Definition unready_bot : TopGGIntegration.t :=
  {| TopGGIntegration.client := unready_client;
     TopGGIntegration.commandsToken := Some "topgg-v1-token" |}.


(** The client at the [clientReady] event, in three guilds. *)
Definition logged_in : Shell.ClientUser :=
  {| Shell.tag := "Commands#0042"; Shell.user_id := "1042" |}.

Definition shell_client : Shell.ShellClient :=
  {| Shell.base := Example.ready_client;
     Shell.user := Some logged_in;
     Shell.guilds_cache_size := 3 |}.

(** A runtime without timers. *)
Definition empty_runtime : PeriodicUpdates.Runtime :=
  {| PeriodicUpdates.intervals := ∅; PeriodicUpdates.next_handle := 1%positive |}.

End Deployment.

(** * Facts about [findIndex] and the merge *)

Section FindIndex.
Context {A : Type} (p : A → bool).

Lemma findIndex_from_shift (l : list A) (i : Z) :
  (findIndex_from p l 0 = (-1)%Z ∧ findIndex_from p l i = (-1)%Z) ∨
  ((0 ≤ findIndex_from p l 0)%Z ∧
   findIndex_from p l i = (i + findIndex_from p l 0)%Z).
Proof.
  revert i. induction l as [|x l IH]; intros i; simpl.
  2: change (0 + 1)%Z with 1%Z.
  - left. done.
  - destruct (p x).
    + right. lia.
    + destruct (IH 1%Z) as [[H0 H1]|[H0 H1]], (IH (i + 1)%Z) as [[K0 K1]|[K0 K1]];
        lia.
Qed.

Lemma findIndex_cons (x : A) (l : list A) :
  findIndex p (x :: l) =
  if p x then 0%Z
  else if (0 <=? findIndex p l)%Z then (1 + findIndex p l)%Z else (-1)%Z.
Proof.
  unfold findIndex. simpl. change (0 + 1)%Z with 1%Z. destruct (p x); [done|].
  destruct (findIndex_from_shift l 1) as [[H0 H1]|[H0 H1]].
  - rewrite H0, H1. done.
  - rewrite H1. destruct (Z.leb_spec 0 (findIndex_from p l 0)); [done|lia].
Qed.

Lemma findIndex_range (l : list A) :
  findIndex p l = (-1)%Z ∨ (0 ≤ findIndex p l < Z.of_nat (length l))%Z.
Proof.
  induction l as [|x l IH]; [left; done|].
  rewrite findIndex_cons. destruct (p x); [right; simpl; lia|].
  destruct (Z.leb_spec 0 (findIndex p l)); [right; simpl; lia|left; done].
Qed.

End FindIndex.

Section MergeFacts.
Import Merge.

Lemma upsert_nil d : upsert [] d = [d].
Proof. reflexivity. Qed.

Lemma upsert_cons c l d :
  upsert (c :: l) d =
  if decide (rc_name c = rc_name d) then d :: l else c :: upsert l d.
Proof.
  unfold upsert.
  rewrite findIndex_cons.
  destruct (String.eqb_spec (rc_name c) (rc_name d)) as [E|E].
  - rewrite decide_True by done. reflexivity.
  - rewrite decide_False by done.
    destruct (findIndex_range (λ cmd, String.eqb (rc_name cmd) (rc_name d)) l)
      as [H|H].
    + rewrite H. reflexivity.
    + destruct (Z.leb_spec 0 (findIndex (λ cmd, String.eqb (rc_name cmd) (rc_name d)) l));
        [|lia].
      destruct (Z.leb_spec 0 (1 + findIndex (λ cmd, String.eqb (rc_name cmd) (rc_name d)) l));
        [|lia].
      cbn. rewrite Z2Nat.inj_add by lia. reflexivity.
Qed.

Lemma upsert_absent (l : list RestCommand) d :
  rc_name d ∉ rc_name <$> l → upsert l d = l ++ [d].
Proof.
  induction l as [|c l IH]; intros H; [done|].
  rewrite fmap_cons, not_elem_of_cons in H. destruct H as [H1 H2].
  rewrite upsert_cons, decide_False by done. by rewrite IH.
Qed.

Lemma by_name_absent name (ds : list RestCommand) :
  name ∉ rc_name <$> ds → by_name name ds = None.
Proof.
  intros H. unfold by_name.
  destruct (filter _ ds) as [|d ds'] eqn:E; [done|].
  assert (d ∈ filter (λ d, rc_name d = name) ds) as Hd by (rewrite E; left).
  apply list_elem_of_filter in Hd as [<- Hd].
  destruct H. by apply list_elem_of_fmap_2.
Qed.

Lemma filter_other_names_absent name (ds : list RestCommand) :
  name ∉ rc_name <$> ds → filter (λ d, rc_name d ≠ name) ds = ds.
Proof.
  induction ds as [|d ds IH]; intros H; [done|].
  rewrite fmap_cons, not_elem_of_cons in H. destruct H as [H1 H2].
  rewrite filter_cons_True by done. by rewrite IH.
Qed.

Lemma NoDup_names_filter (P : RestCommand → Prop) `{∀ d, Decision (P d)}
  (ds : list RestCommand) :
  NoDup (rc_name <$> ds) → NoDup (rc_name <$> filter P ds).
Proof.
  intros Hnd. eapply sublist_NoDup; [exact Hnd|].
  apply fmap_sublist, sublist_filter; done.
Qed.

Lemma merge_disjoint (ds l : list RestCommand) :
  NoDup (rc_name <$> ds) →
  (∀ d, d ∈ ds → rc_name d ∉ rc_name <$> l) →
  mergeCommands l ds = l ++ ds.
Proof.
  revert l. induction ds as [|d ds IH]; intros l Hnd Hdis.
  - by rewrite app_nil_r.
  - rewrite fmap_cons, NoDup_cons in Hnd. destruct Hnd as [Hd Hnd].
    unfold mergeCommands in *. simpl.
    rewrite upsert_absent by (apply Hdis; left).
    rewrite IH, <- app_assoc; [done|done|].
    intros d' Hd'. rewrite fmap_app, not_elem_of_app. split.
    + apply Hdis. by right.
    + simpl. rewrite list_elem_of_singleton. intros E.
      apply Hd. rewrite <- E. by apply list_elem_of_fmap_2.
Qed.

Lemma merge_nil (ds : list RestCommand) : NoDup (rc_name <$> ds) → mergeCommands [] ds = ds.
Proof.
  intros Hnd. rewrite merge_disjoint; [done|done|].
  intros d _. simpl. apply not_elem_of_nil.
Qed.

Lemma merge_cons (ds : list RestCommand) c l :
  NoDup (rc_name <$> ds) →
  mergeCommands (c :: l) ds =
  default c (by_name (rc_name c) ds)
    :: mergeCommands l (filter (λ d, rc_name d ≠ rc_name c) ds).
Proof.
  revert c l. induction ds as [|d ds IH]; intros c l Hnd; [done|].
  rewrite fmap_cons, NoDup_cons in Hnd. destruct Hnd as [Hd Hnd].
  unfold mergeCommands in *. simpl. rewrite upsert_cons.
  destruct (decide (rc_name c = rc_name d)) as [E|E].
  - rewrite IH by done.
    rewrite by_name_absent by done.
    rewrite filter_other_names_absent by done.
    unfold by_name. rewrite filter_cons_True by done.
    rewrite filter_cons_False by naive_solver.
    rewrite E, filter_other_names_absent by done. done.
  - rewrite IH by done.
    unfold by_name. rewrite filter_cons_False by naive_solver.
    rewrite filter_cons_True by naive_solver. done.
Qed.

Lemma by_name_Some name (ds : list RestCommand) d :
  by_name name ds = Some d → d ∈ ds ∧ rc_name d = name.
Proof.
  unfold by_name. intros H.
  assert (d ∈ filter (λ d, rc_name d = name) ds) as Hd.
  { destruct (filter _ ds); simplify_eq/=. left. }
  apply list_elem_of_filter in Hd as [Hn Hd]. done.
Qed.

Lemma by_name_elem (ds : list RestCommand) d :
  NoDup (rc_name <$> ds) → d ∈ ds → by_name (rc_name d) ds = Some d.
Proof.
  induction ds as [|d0 ds IH]; intros Hnd Hd; [by apply elem_of_nil in Hd|].
  rewrite fmap_cons, NoDup_cons in Hnd. destruct Hnd as [Hd0 Hnd].
  unfold by_name in *. apply elem_of_cons in Hd as [->|Hd].
  - by rewrite filter_cons_True.
  - rewrite filter_cons_False; [by apply IH|].
    intros E. apply Hd0. rewrite E. by apply list_elem_of_fmap_2.
Qed.

Lemma first_named_tail name c (l : list RestCommand) i :
  first_named name (c :: l) (S i) → rc_name c ≠ name ∧ first_named name l i.
Proof.
  intros [[c' [Hc' Hn]] Hmin]. split.
  - apply (Hmin 0 c); [lia|done].
  - split; [by exists c'|].
    intros j c'' Hj Hl. apply (Hmin (S j) c''); [lia|done].
Qed.

Lemma first_named_tail_inv name c (l : list RestCommand) i :
  rc_name c ≠ name → first_named name l i → first_named name (c :: l) (S i).
Proof.
  intros Hc [[c' [Hc' Hn]] Hmin]. split; [by exists c'|].
  intros [|j] c'' Hj Hl; simplify_eq/=; [done|].
  apply (Hmin j c''); [lia|done].
Qed.

Lemma merge_replaced_in_place (l ds : list RestCommand) d i :
  NoDup (rc_name <$> ds) → d ∈ ds → first_named (rc_name d) l i →
  mergeCommands l ds !! i = Some d.
Proof.
  revert ds i. induction l as [|c l IH]; intros ds i Hnd Hd Hfirst.
  - by destruct Hfirst as [[c [Hc _]] _].
  - rewrite merge_cons by done. destruct i as [|i].
    + destruct Hfirst as [[c' [Hc' Hn]] _]. simplify_eq/=.
      by rewrite Hn, by_name_elem.
    + apply first_named_tail in Hfirst as [Hc Hfirst]. simpl.
      apply IH; [by apply NoDup_names_filter| |done].
      apply list_elem_of_filter. naive_solver.
Qed.

Lemma merge_others_preserved (l ds : list RestCommand) i c :
  NoDup (rc_name <$> ds) → l !! i = Some c →
  rc_name c ∉ rc_name <$> ds ∨ ¬ first_named (rc_name c) l i →
  mergeCommands l ds !! i = Some c.
Proof.
  revert ds i. induction l as [|c0 l IH]; intros ds i Hnd Hi Hc; [done|].
  rewrite merge_cons by done. destruct i as [|i]; simplify_eq/=.
  - destruct Hc as [Hc|Hc].
    + by rewrite by_name_absent.
    + destruct Hc. split; [by exists c|]. intros j ? Hj. lia.
  - apply IH; [by apply NoDup_names_filter|done|].
    destruct (decide (rc_name c0 = rc_name c)) as [E|E].
    + left. intros [d [Hd1 Hd2]]%list_elem_of_fmap.
      apply list_elem_of_filter in Hd2 as [Hd2 _]. congruence.
    + destruct Hc as [Hc|Hc].
      * left. intros [d [Hd1 Hd2]]%list_elem_of_fmap.
        apply list_elem_of_filter in Hd2 as [_ Hd2].
        apply Hc. rewrite Hd1. by apply list_elem_of_fmap_2.
      * right. intros Hfirst. apply Hc. by apply first_named_tail_inv.
Qed.

Lemma merge_missing_appended (l ds : list RestCommand) :
  NoDup (rc_name <$> ds) →
  drop (length l) (mergeCommands l ds)
  = filter (λ d, rc_name d ∉ rc_name <$> l) ds.
Proof.
  revert ds. induction l as [|c l IH]; intros ds Hnd.
  - rewrite merge_nil by done. simpl.
    clear Hnd. induction ds as [|d ds IHds]; [done|].
    rewrite filter_cons_True by apply not_elem_of_nil. by rewrite <- IHds.
  - rewrite merge_cons by done. simpl.
    rewrite IH by (by apply NoDup_names_filter).
    rewrite list_filter_filter. apply list_filter_iff.
    intros d. rewrite not_elem_of_cons. tauto.
Qed.

Lemma merge_names_stable (l ds : list RestCommand) :
  NoDup (rc_name <$> ds) →
  rc_name <$> take (length l) (mergeCommands l ds) = rc_name <$> l.
Proof.
  revert ds. induction l as [|c l IH]; intros ds Hnd; [done|].
  rewrite merge_cons by done. simpl.
  rewrite IH by (by apply NoDup_names_filter). f_equal.
  destruct (by_name (rc_name c) ds) as [d|] eqn:E; [|done].
  by apply by_name_Some in E as [_ E].
Qed.

Lemma mergeCommands_policy (desired existing : list RestCommand) :
  NoDup (rc_name <$> desired) →
  merge_policy desired existing (mergeCommands existing desired).
Proof.
  intros Hnd. split.
  - intros d i. by apply merge_replaced_in_place.
  - intros i c. by apply merge_others_preserved.
  - by apply merge_missing_appended.
  - by apply merge_names_stable.
Qed.

(** The examples of the specification. *)
Example merge_appends_after_entrypoint entrypoint :
  rc_name entrypoint = "entrypoint" →
  mergeCommands [entrypoint] CommandSyncer.newCommands
  = entrypoint :: CommandSyncer.newCommands.
Proof.
  intros Hname. apply merge_disjoint.
  - apply NoDup_cons. split; [|apply NoDup_singleton].
    rewrite list_elem_of_singleton. discriminate.
  - intros d Hd. simpl. rewrite Hname, list_elem_of_singleton.
    unfold CommandSyncer.newCommands in Hd. simpl in Hd.
    rewrite !elem_of_cons, elem_of_nil in Hd. by destruct Hd as [->|[->|[]]].
Qed.

Example merge_replaces_old_ping old_ping :
  rc_name old_ping = "ping" →
  mergeCommands [old_ping] CommandSyncer.newCommands = CommandSyncer.newCommands.
Proof.
  intros Hname. unfold mergeCommands, CommandSyncer.newCommands.
  cbn [List.map CommandSyncer.commands foldl].
  rewrite upsert_cons, decide_True by done.
  by rewrite upsert_cons, decide_False.
Qed.

(** Only the first command of a name is replaced. *)
Example merge_keeps_second_ping user_ping old_ping :
  rc_name user_ping = "ping" → rc_name old_ping = "ping" →
  mergeCommands [user_ping; old_ping] CommandSyncer.newCommands
  = [toJSON (setDescription "Check bot latency" (setName "ping" newSlashCommandBuilder));
     old_ping;
     toJSON (setDescription "Get bot information" (setName "info" newSlashCommandBuilder))].
Proof.
  intros Huser Hold. unfold mergeCommands, CommandSyncer.newCommands.
  cbn [List.map CommandSyncer.commands foldl].
  rewrite upsert_cons, decide_True by done.
  rewrite upsert_cons, decide_False by done.
  rewrite upsert_cons, decide_False by (rewrite Hold; done).
  reflexivity.
Qed.

Lemma newCommands_names :
  rc_name <$> CommandSyncer.newCommands = ["ping"; "info"].
Proof. reflexivity. Qed.

Lemma newCommands_NoDup : NoDup (rc_name <$> CommandSyncer.newCommands).
Proof.
  rewrite newCommands_names. apply NoDup_cons. split.
  - rewrite list_elem_of_singleton. discriminate.
  - apply NoDup_singleton.
Qed.

End MergeFacts.

(** * Rules for running [Async] computations *)

Section Rules.
Import Observe.
Context {A B : Type}.

Lemma wp_eq (m : Async A) h r es (Q : Completion A → Trace → Prop) :
  m h = (r, es) → Q r es → wp m h Q.
Proof. unfold wp. by intros ->. Qed.

Lemma wp_ret (a : A) h (Q : Completion A → Trace → Prop) :
  Q (Normal a) [] → wp (mret a) h Q.
Proof. done. Qed.

Lemma wp_throw (e : Error) h (Q : Completion A → Trace → Prop) :
  Q (Throw e) [] → wp (throw e) h Q.
Proof. done. Qed.

Lemma wp_bind (m : Async A) (k : A → Async B) h (Q : Completion B → Trace → Prop) :
  wp m h (λ r es,
    match r with
    | Normal a => wp (k a) (h ++ es) (λ r' es', Q r' (es ++ es'))
    | Throw e => Q (Throw e) es
    end) →
  wp (m ≫= k) h Q.
Proof.
  unfold wp, mbind, async_bind, bind.
  destruct (m h) as [[a|e] es]; simpl; [|done].
  by destruct (k a (h ++ es)).
Qed.

Lemma wp_try (body : Async A) (handler : Error → Async A) h
    (Q : Completion A → Trace → Prop) :
  wp body h (λ r es,
    match r with
    | Normal a => Q (Normal a) es
    | Throw e => wp (handler e) (h ++ es) (λ r' es', Q r' (es ++ es'))
    end) →
  wp (try_catch body handler) h Q.
Proof.
  unfold wp, try_catch.
  destruct (body h) as [[a|e] es]; simpl; [done|].
  by destruct (handler e (h ++ es)).
Qed.

Lemma wp_run_eq (m : Async A) h r es :
  wp m h (λ r' es', r' = r ∧ es' = es) → m h = (r, es).
Proof. unfold wp. destruct (m h) as [r' es']. simpl. by intros [-> ->]. Qed.

Lemma wp_mono (m : Async A) h (Q Q' : Completion A → Trace → Prop) :
  wp m h Q → (∀ r es, Q r es → Q' r es) → wp m h Q'.
Proof. unfold wp. auto. Qed.

End Rules.

Section PrimitiveRules.
Import Observe.
Context (world : World).

Lemma wp_logger level text h (Q : Completion () → Trace → Prop) :
  Q (Normal ()) [Log level text] → wp (logger level text) h Q.
Proof. done. Qed.

Lemma wp_get route h (Q : Completion (list RestCommand) → Trace → Prop) :
  Q (rest_get world h route) [RestGet route (rest_get world h route)] →
  wp (Rest.get world route) h Q.
Proof. done. Qed.

Lemma wp_put route body h (Q : Completion (list RestCommand) → Trace → Prop) :
  Q (rest_put world h route body) [RestPut route body (rest_put world h route body)] →
  wp (Rest.put world route body) h Q.
Proof. done. Qed.

Lemma wp_post route body h (Q : Completion RestCommand → Trace → Prop) :
  Q (rest_post world h route body) [RestPost route body (rest_post world h route body)] →
  wp (Rest.post world route body) h Q.
Proof. done. Qed.

Lemma wp_axios_post u hs body h (Q : Completion Response → Trace → Prop) :
  Q (axios_post world h u hs body) [AxiosPost u hs body (axios_post world h u hs body)] →
  wp (TopGGIntegration.axios_post_call world u hs body) h Q.
Proof. done. Qed.

Lemma wp_scope_route client guildId h (Q : Completion Route → Trace → Prop) :
  match application client with
  | Some app => Q (Normal (route_for app guildId)) []
  | None => Q (Throw (null_property_error "id")) []
  end →
  wp (Rest.scope_route client guildId) h Q.
Proof.
  unfold wp, Rest.scope_route, route_for, application_id.
  by destruct (application client), (truthy guildId).
Qed.

Lemma wp_application_id client h (Q : Completion string → Trace → Prop) :
  match application client with
  | Some app => Q (Normal (app_id app)) []
  | None => Q (Throw (null_property_error "id")) []
  end →
  wp (application_id client) h Q.
Proof. unfold wp, application_id. by destruct (application client). Qed.

End PrimitiveRules.

(** ** Reading traces *)

Section TraceFacts.
Import Observe.

Lemma puts_app es1 es2 : puts (es1 ++ es2) = puts es1 ++ puts es2.
Proof. apply omap_app. Qed.

Lemma posts_app es1 es2 : posts (es1 ++ es2) = posts es1 ++ posts es2.
Proof. apply omap_app. Qed.

Lemma directory_posts_app es1 es2 :
  directory_posts (es1 ++ es2) = directory_posts es1 ++ directory_posts es2.
Proof. apply omap_app. Qed.

Lemma puts_cons ev es :
  puts (ev :: es)
  = match ev with RestPut r b a => [(r, b, a)] | _ => [] end ++ puts es.
Proof. by destruct ev. Qed.

Lemma posts_cons ev es :
  posts (ev :: es)
  = match ev with RestPost r b a => [(r, b, a)] | _ => [] end ++ posts es.
Proof. by destruct ev. Qed.

Lemma directory_posts_cons ev es :
  directory_posts (ev :: es)
  = match ev with AxiosPost u hs b a => [(u, hs, b, a)] | _ => [] end
    ++ directory_posts es.
Proof. by destruct ev. Qed.

Lemma puts_nil : puts [] = [].
Proof. done. Qed.

Lemma posts_nil : posts [] = [].
Proof. done. Qed.

Lemma directory_posts_nil : directory_posts [] = [].
Proof. done. Qed.

Lemma puts_logs es : Forall is_log es → puts es = [].
Proof. induction 1 as [|[] es H _ IH]; try done. Qed.

Lemma posts_logs es : Forall is_log es → posts es = [].
Proof. induction 1 as [|[] es H _ IH]; try done. Qed.

Lemma directory_posts_logs es : Forall is_log es → directory_posts es = [].
Proof. induction 1 as [|[] es H _ IH]; try done. Qed.

Lemma elem_of_puts route body answer es :
  RestPut route body answer ∈ es ↔ (route, body, answer) ∈ puts es.
Proof.
  unfold puts. rewrite list_elem_of_omap. split.
  - intros H. by exists (RestPut route body answer).
  - intros [[] [H ?]]; by simplify_eq.
Qed.

Lemma elem_of_posts route body answer es :
  RestPost route body answer ∈ es ↔ (route, body, answer) ∈ posts es.
Proof.
  unfold posts. rewrite list_elem_of_omap. split.
  - intros H. by exists (RestPost route body answer).
  - intros [[] [H ?]]; by simplify_eq.
Qed.

Lemma elem_of_directory_posts u hs body answer es :
  AxiosPost u hs body answer ∈ es ↔ (u, hs, body, answer) ∈ directory_posts es.
Proof.
  unfold directory_posts. rewrite list_elem_of_omap. split.
  - intros H. by exists (AxiosPost u hs body answer).
  - intros [[] [H ?]]; by simplify_eq.
Qed.

End TraceFacts.

(** The merge loop returns the merged list and only logs. *)
Lemma merge_step_run allCommands newCmd h :
  ∃ line,
    CommandSyncer.merge_step allCommands newCmd h
    = (Normal (Merge.upsert allCommands newCmd), [line]) ∧ Observe.is_log line.
Proof.
  unfold CommandSyncer.merge_step, Merge.upsert.
  destruct (0 <=? _)%Z; by eexists.
Qed.

Lemma merge_loop_run desired existing h :
  ∃ lines,
    for_of_acc desired existing CommandSyncer.merge_step h
    = (Normal (Merge.mergeCommands existing desired), lines)
    ∧ Forall Observe.is_log lines.
Proof.
  revert existing h. induction desired as [|d desired IH]; intros existing h.
  - by exists [].
  - destruct (merge_step_run existing d h) as (line & Hstep & Hline).
    destruct (IH (Merge.upsert existing d) (h ++ [line])) as (lines & Hrest & Hlines).
    exists (line :: lines). split; [|by constructor].
    cbn [for_of_acc]. unfold mbind, async_bind, bind.
    by rewrite Hstep, Hrest.
Qed.

Lemma wp_merge_loop desired existing h
    (Q : Completion (list RestCommand) → Trace → Prop) :
  (∀ lines, Forall Observe.is_log lines →
     Q (Normal (Merge.mergeCommands existing desired)) lines) →
  Observe.wp (for_of_acc desired existing CommandSyncer.merge_step) h Q.
Proof.
  intros HQ. destruct (merge_loop_run desired existing h) as (lines & Hrun & Hlines).
  eapply wp_eq; [exact Hrun|]. by apply HQ.
Qed.

(** One step of a run: the rule for the construct at the head. *)
Ltac wp_step :=
  rewrite ?app_nil_r;
  lazymatch goal with
  | |- Observe.wp (for_of_acc _ _ CommandSyncer.merge_step) _ _ =>
      let lines := fresh "lines" in
      let Hlines := fresh "Hlines" in
      apply wp_merge_loop; intros lines Hlines
  | |- Observe.wp (mbind _ _) _ _ => apply wp_bind
  | |- Observe.wp (try_catch _ _) _ _ => apply wp_try
  | |- Observe.wp (mret _) _ _ => apply wp_ret
  | |- Observe.wp (ret _) _ _ => apply wp_ret
  | |- Observe.wp (throw _) _ _ => apply wp_throw
  | |- Observe.wp (logger _ _) _ _ => apply wp_logger
  | |- Observe.wp (Rest.get _ _) _ _ => apply wp_get
  | |- Observe.wp (Rest.put _ _ _) _ _ => apply wp_put
  | |- Observe.wp (Rest.post _ _ _) _ _ => apply wp_post
  | |- Observe.wp (TopGGIntegration.axios_post_call _ _ _ _) _ _ => apply wp_axios_post
  | |- Observe.wp (Rest.scope_route _ _) _ _ => apply wp_scope_route
  | |- Observe.wp (application_id _) _ _ => apply wp_application_id
  | |- Observe.wp (if ?b then _ else _) _ _ => destruct b eqn:?
  | |- Observe.wp (match (if ?b then _ else _) with pair _ _ => _ end) _ _ =>
      destruct b eqn:?; cbn beta iota
  | |- Observe.wp (for_of_acc (_ :: _) _ _) _ _ => cbn [for_of_acc]
  | |- Observe.wp (for_of_acc [] _ _) _ _ => cbn [for_of_acc]
  | H : ?a = Some _ |- match ?a with Some _ => _ | None => _ end => rewrite H
  | H : ?a = None |- match ?a with Some _ => _ | None => _ end => rewrite H
  | H : ?a = Normal _ |- match ?a with Normal _ => _ | Throw _ => _ end => rewrite H
  | H : ?a = Throw _ |- match ?a with Normal _ => _ | Throw _ => _ end => rewrite H
  | |- match ?a with Normal _ => _ | Throw _ => _ end =>
      let E := fresh "Hanswer" in destruct a eqn:E
  | |- match ?a with Some _ => _ | None => _ end =>
      let E := fresh "Hvalue" in destruct a eqn:E
  end;
  cbv beta.

(** Read the bulk overwrites, creates and directory POSTs off a trace
    that is an append of explicit interactions and log lines. *)
Ltac read_trace_step :=
  match goal with
  | |- context [Observe.puts (_ ++ _)] => rewrite puts_app
  | |- context [Observe.posts (_ ++ _)] => rewrite posts_app
  | |- context [Observe.directory_posts (_ ++ _)] => rewrite directory_posts_app
  | |- context [Observe.puts (_ :: _)] => rewrite puts_cons
  | |- context [Observe.posts (_ :: _)] => rewrite posts_cons
  | |- context [Observe.directory_posts (_ :: _)] => rewrite directory_posts_cons
  | |- context [Observe.puts []] => rewrite puts_nil
  | |- context [Observe.posts []] => rewrite posts_nil
  | |- context [Observe.directory_posts []] => rewrite directory_posts_nil
  | Hl : Forall Observe.is_log ?es |- context [Observe.puts ?es] =>
      rewrite (puts_logs es Hl)
  | Hl : Forall Observe.is_log ?es |- context [Observe.posts ?es] =>
      rewrite (posts_logs es Hl)
  | Hl : Forall Observe.is_log ?es |- context [Observe.directory_posts ?es] =>
      rewrite (directory_posts_logs es Hl)
  | Hq : Observe.directory_posts ?es = [] |- context [Observe.directory_posts ?es] =>
      rewrite Hq
  end.

Ltac read_trace :=
  repeat read_trace_step; cbn [Datatypes.app fmap list_fmap fst snd].

Ltac read_trace_in_step H :=
  match type of H with
  | context [Observe.puts (_ ++ _)] => rewrite puts_app in H
  | context [Observe.posts (_ ++ _)] => rewrite posts_app in H
  | context [Observe.directory_posts (_ ++ _)] => rewrite directory_posts_app in H
  | context [Observe.puts (_ :: _)] => rewrite puts_cons in H
  | context [Observe.posts (_ :: _)] => rewrite posts_cons in H
  | context [Observe.directory_posts (_ :: _)] => rewrite directory_posts_cons in H
  | context [Observe.puts []] => rewrite puts_nil in H
  | context [Observe.posts []] => rewrite posts_nil in H
  | context [Observe.directory_posts []] => rewrite directory_posts_nil in H
  | context [Observe.puts ?es] =>
      match goal with Hl : Forall Observe.is_log es |- _ =>
        rewrite (puts_logs es Hl) in H end
  | context [Observe.posts ?es] =>
      match goal with Hl : Forall Observe.is_log es |- _ =>
        rewrite (posts_logs es Hl) in H end
  | context [Observe.directory_posts ?es] =>
      match goal with
      | Hl : Forall Observe.is_log es |- _ =>
          rewrite (directory_posts_logs es Hl) in H
      | Hq : Observe.directory_posts es = [] |- _ => rewrite Hq in H
      end
  end.

Ltac read_trace_in H :=
  repeat read_trace_in_step H; cbn [Datatypes.app fmap list_fmap fst snd] in H.

(** Find an interaction in a trace. *)
Ltac find_event :=
  first
    [ apply list_elem_of_here
    | apply list_elem_of_further; find_event
    | apply elem_of_app; right; find_event
    | apply elem_of_app; left; find_event ].

(** Run a computation against a postcondition, one construct at a time;
    the leaves are the postcondition at each possible outcome. *)
Ltac wp_run :=
  lazymatch goal with
  | |- Observe.wp ?m ?h ?Q =>
      let post := fresh "post" in
      set (post := Q); repeat wp_step; subst post; cbv beta
  end.

Section SyncTheorems.
Import Observe Merge.

Ltac unfold_sync :=
  unfold CommandSyncer.syncCommands, CommandSyncer.fetch_existing,
    CommandSyncer.createCommandsIndividually, CommandSyncer.commands,
    BareSyncer.syncCommands.

Lemma sync_puts_merged world client guildId app h existing :
  application client = Some app →
  rest_get world h (route_for app guildId) = Normal existing →
  ∃ answer,
    puts (CommandSyncer.syncCommands world client guildId h).2
    = [(route_for app guildId,
        mergeCommands existing CommandSyncer.newCommands, answer)].
Proof.
  intros Hready Hget.
  change (wp (CommandSyncer.syncCommands world client guildId) h
            (λ _ es, ∃ answer, puts es
               = [(route_for app guildId,
                   mergeCommands existing CommandSyncer.newCommands, answer)])).
  unfold_sync. wp_run.
  all: read_trace; by eexists.
Qed.

Lemma bare_sync_puts_existing world client guildId app h existing :
  application client = Some app →
  rest_get world h (route_for app guildId) = Normal existing →
  ∃ answer,
    puts (BareSyncer.syncCommands world client guildId h).2
    = [(route_for app guildId, existing, answer)].
Proof.
  intros Hready Hget.
  change (wp (BareSyncer.syncCommands world client guildId) h
            (λ _ es, ∃ answer, puts es = [(route_for app guildId, existing, answer)])).
  unfold_sync. wp_run.
  all: read_trace; by eexists.
Qed.

(** C1, as amended.  After a successful fetch by a ready client,
    [syncCommands] of [discordjs/index.js] sends exactly one bulk
    overwrite, to the route of the scope, and its body follows the merge
    policy: each desired command ([ping], [info]) whose name exists takes
    the position of the first existing command of that name, every other
    existing command keeps its position, and the desired commands whose
    name does not exist follow the existing ones, in order and once.  The
    [syncCommands] of the variant without example commands has no desired
    list: its one bulk overwrite carries the fetched list unchanged. *)
Theorem sync_sends_merged_list world client guildId app h existing :
  application client = Some app →
  rest_get world h (route_for app guildId) = Normal existing →
  (∃ combined answer,
     puts (CommandSyncer.syncCommands world client guildId h).2
     = [(route_for app guildId, combined, answer)]
     ∧ merge_policy CommandSyncer.newCommands existing combined)
  ∧ (∃ answer,
       puts (BareSyncer.syncCommands world client guildId h).2
       = [(route_for app guildId, existing, answer)]).
Proof.
  intros Hready Hget. split.
  - destruct (sync_puts_merged world client guildId app h existing)
      as [answer Hputs]; [done..|].
    exists (mergeCommands existing CommandSyncer.newCommands), answer.
    split; [done|]. apply mergeCommands_policy, newCommands_NoDup.
  - by apply bare_sync_puts_existing.
Qed.

(** C5, as amended.  When the fetch of the existing commands fails for a
    ready client, [syncCommands] of [discordjs/index.js] logs a warning
    with the failure message and still sends one bulk overwrite, whose
    body is the desired commands alone (the existing list counts as
    empty).  The [syncCommands] of the variant without example commands
    logs the failure as an error, sends nothing and returns 0. *)
Theorem sync_survives_failed_fetch world client guildId app h e :
  application client = Some app →
  rest_get world h (route_for app guildId) = Throw e →
  (Log Level.warn ("⚠️ Could not fetch existing commands: " +:+ message e)
     ∈ (CommandSyncer.syncCommands world client guildId h).2
   ∧ ∃ answer,
       puts (CommandSyncer.syncCommands world client guildId h).2
       = [(route_for app guildId, CommandSyncer.newCommands, answer)])
  ∧ BareSyncer.syncCommands world client guildId h
    = (Normal 0,
       [RestGet (route_for app guildId) (Throw e);
        Log Level.error ("❌ Error syncing commands: " +:+ message e)]).
Proof.
  intros Hready Hget. split.
  - change (wp (CommandSyncer.syncCommands world client guildId) h
              (λ _ es,
                 Log Level.warn ("⚠️ Could not fetch existing commands: " +:+ message e) ∈ es
                 ∧ ∃ answer, puts es
                     = [(route_for app guildId, CommandSyncer.newCommands, answer)])).
    unfold_sync. wp_run.
    all: split; [find_event|].
    all: read_trace; eexists; rewrite merge_nil by apply newCommands_NoDup; reflexivity.
  - apply wp_run_eq.
    unfold_sync. wp_run. done.
Qed.

(** C2, as amended.  In [discordjs/index.js], when the bulk overwrite of
    a [syncCommands] call throws: if the message contains "Entry Point",
    each desired command is created individually, in order, on the route
    of the failed overwrite, a failed create does not stop the next one,
    the call returns the number of creates that succeeded, and a create
    that failed with "already exists" is logged as skipped; otherwise the
    call returns 0 and creates nothing.  The [syncCommands] of the variant
    without example commands has no fallback: whatever the message, it
    returns 0 and creates nothing. *)
Theorem sync_falls_back_on_entry_point world client guildId h route body e :
  (RestPut route body (Throw e) ∈ (CommandSyncer.syncCommands world client guildId h).2 →
   (includes (message e) "Entry Point" = true →
      (posts (CommandSyncer.syncCommands world client guildId h).2).*1
        = (λ c, (route, c)) <$> CommandSyncer.newCommands
      ∧ (CommandSyncer.syncCommands world client guildId h).1
        = Normal (length (filter (λ p, is_normal p.2)
                    (posts (CommandSyncer.syncCommands world client guildId h).2)))
      ∧ ∀ c e',
          RestPost route c (Throw e') ∈ (CommandSyncer.syncCommands world client guildId h).2 →
          includes (message e') "already exists" = true →
          Log Level.info ("ℹ️ Command " +:+ rc_name c +:+ " already exists, skipping")
            ∈ (CommandSyncer.syncCommands world client guildId h).2)
   ∧ (includes (message e) "Entry Point" = false →
      (CommandSyncer.syncCommands world client guildId h).1 = Normal 0
      ∧ posts (CommandSyncer.syncCommands world client guildId h).2 = []))
  ∧ (RestPut route body (Throw e) ∈ (BareSyncer.syncCommands world client guildId h).2 →
     (BareSyncer.syncCommands world client guildId h).1 = Normal 0
     ∧ posts (BareSyncer.syncCommands world client guildId h).2 = []).
Proof.
  split.
  - change (wp (CommandSyncer.syncCommands world client guildId) h
      (λ r es,
         RestPut route body (Throw e) ∈ es →
         (includes (message e) "Entry Point" = true →
            (posts es).*1 = (λ c, (route, c)) <$> CommandSyncer.newCommands
            ∧ r = Normal (length (filter (λ p, is_normal p.2) (posts es)))
            ∧ ∀ c e',
                RestPost route c (Throw e') ∈ es →
                includes (message e') "already exists" = true →
                Log Level.info ("ℹ️ Command " +:+ rc_name c +:+ " already exists, skipping")
                  ∈ es)
         ∧ (includes (message e) "Entry Point" = false →
            r = Normal 0 ∧ posts es = []))).
    unfold_sync. wp_run.
    all: intros Hput; apply elem_of_puts in Hput; read_trace_in Hput.
    all: rewrite ?elem_of_nil, ?list_elem_of_singleton in Hput; simplify_eq.
    all: split; intros Hmarker; try congruence.
    all: read_trace; try done.
    all: split; [reflexivity|]; split; [reflexivity|].
    all: intros cmd err Hpost; apply elem_of_posts in Hpost; read_trace_in Hpost.
    all: intros Hexists; rewrite ?elem_of_cons, ?elem_of_nil in Hpost.
    all: destruct_or!; simplify_eq; try congruence.
    all: find_event.
  - change (wp (BareSyncer.syncCommands world client guildId) h
      (λ r es, RestPut route body (Throw e) ∈ es → r = Normal 0 ∧ posts es = [])).
    unfold_sync. wp_run.
    all: intros Hput; apply elem_of_puts in Hput; read_trace_in Hput.
    all: rewrite ?elem_of_nil, ?list_elem_of_singleton in Hput; simplify_eq.
    all: by read_trace.
Qed.

End SyncTheorems.

(** * The format converter *)

Section Converter.
Import Observe TopGGIntegration ConverterSpec.

(** Induction on options that reaches the sub-options. *)
Lemma ApplicationCommandOption_nested_ind (P : ApplicationCommandOption → Prop) :
  (∀ name description type required choices options,
     (∀ subOptions, options = Some subOptions → Forall P subOptions) →
     P (Build_ApplicationCommandOption name description type required choices options)) →
  ∀ option, P option.
Proof.
  intros step. fix IH 1.
  intros [name description type required choices [subOptions|]]; apply step.
  - intros subOptions' [= <-].
    induction subOptions as [|sub subOptions IHsubs]; constructor.
    + apply IH.
    + apply IHsubs.
  - intros subOptions' [=].
Qed.

Lemma or_string_present v fallback s :
  v = Some s → s ≠ "" → or_string v fallback = s.
Proof.
  intros -> Hs. unfold or_string.
  destruct (String.eqb_spec s ""); [done|done].
Qed.

Lemma or_string_absent v fallback :
  v = None ∨ v = Some "" → or_string v fallback = fallback.
Proof. by intros [->| ->]. Qed.

Lemma positive_length {A} (l : list A) :
  l ≠ [] → (0 <? Z.of_nat (length l))%Z = true.
Proof. destruct l; [done|]. intros _. apply Z.ltb_lt. simpl. lia. Qed.

Lemma convertOption_options option subOptions :
  opt_options option = Some subOptions → subOptions ≠ [] →
  tgo_options (convertOptionToTopGGFormat option)
  = Some (convertOptionToTopGGFormat <$> subOptions).
Proof.
  intros Hsub Hne. destruct option; simpl in *. subst.
  by rewrite positive_length.
Qed.

Lemma convertOption_converts option :
  converts_option option (convertOptionToTopGGFormat option).
Proof.
  induction option as [name description type required choices options IH]
    using ApplicationCommandOption_nested_ind.
  constructor; simpl.
  - done.
  - done.
  - intros b ->. simpl. apply orb_false_r.
  - by intros ->.
  - intros d. apply or_string_present.
  - apply or_string_absent.
  - intros cs -> Hcs. simpl. by rewrite positive_length.
  - by intros [->| ->].
  - intros subs -> Hsubs. rewrite positive_length by done.
    eexists. split; [done|].
    apply Forall2_fmap_r, Forall_Forall2_diag. by apply IH.
  - by intros [->| ->].
Qed.

(** C8.  At every nesting depth [convertOptionToTopGGFormat] copies
    [name], [type] and [required] ([false] when missing), puts "Parameter"
    for a missing or empty description, keeps a non-empty [choices] list
    unchanged and omits the property otherwise, and gives [options] the
    converted sub-options when there are some and omits it otherwise. *)
Theorem option_conversion option :
  converts_option option (convertOptionToTopGGFormat option)
  ∧ ∀ subOptions, opt_options option = Some subOptions → subOptions ≠ [] →
      tgo_options (convertOptionToTopGGFormat option)
      = Some (convertOptionToTopGGFormat <$> subOptions).
Proof. split; [apply convertOption_converts|apply convertOption_options]. Qed.

(** C6.  For a ready client and a command of type User or Message,
    [convertCommandToTopGGFormat] returns a payload whose [type] is the
    command's type and whose [description] is the empty string. *)
Theorem context_menu_conversion this command h app :
  application (client this) = Some app →
  cmd_type command = ApplicationCommandType.User
  ∨ cmd_type command = ApplicationCommandType.Message →
  ∃ payload,
    (convertCommandToTopGGFormat this command h).1 = Normal (Some payload)
    ∧ tg_type payload = cmd_type command
    ∧ tg_description payload = "".
Proof.
  intros Hready Htype.
  change (wp (convertCommandToTopGGFormat this command) h
            (λ r _, ∃ payload, r = Normal (Some payload)
               ∧ tg_type payload = cmd_type command ∧ tg_description payload = "")).
  unfold convertCommandToTopGGFormat. wp_run.
  - by eexists.
  - destruct Htype as [E|E]; rewrite E in *; discriminate.
Qed.

(** C7.  For a ready client and a command of type ChatInput,
    [convertCommandToTopGGFormat] returns a payload whose [type] is 1 and
    whose [description] is the command's description when there is one,
    and "No description" when it is missing or empty. *)
Theorem chat_input_conversion this command h app :
  application (client this) = Some app →
  cmd_type command = ApplicationCommandType.ChatInput →
  ∃ payload,
    (convertCommandToTopGGFormat this command h).1 = Normal (Some payload)
    ∧ tg_type payload = 1%Z
    ∧ (∀ description, cmd_description command = Some description →
         description ≠ "" → tg_description payload = description)
    ∧ (cmd_description command = None ∨ cmd_description command = Some "" →
         tg_description payload = "No description").
Proof.
  intros Hready Htype.
  change (wp (convertCommandToTopGGFormat this command) h
            (λ r _, ∃ payload, r = Normal (Some payload)
               ∧ tg_type payload = 1%Z
               ∧ (∀ description, cmd_description command = Some description →
                    description ≠ "" → tg_description payload = description)
               ∧ (cmd_description command = None ∨ cmd_description command = Some "" →
                    tg_description payload = "No description"))).
  unfold convertCommandToTopGGFormat. wp_run.
  - rewrite Htype in *. discriminate.
  - eexists. split; [done|]. simpl. split; [done|]. split.
    + intros d. apply or_string_present.
    + apply or_string_absent.
Qed.

End Converter.

(** * The directory publisher *)

Section Publisher.
Import Observe TopGGIntegration.
Context (world : World).

(** Converting a command returns a payload or [null] and only logs. *)
Lemma convertCommand_quiet this command h :
  wp (convertCommandToTopGGFormat this command) h
    (λ r es, (∃ payload, r = Normal payload) ∧ Forall is_log es).
Proof.
  unfold convertCommandToTopGGFormat. wp_run.
  all: split; [by eexists|]; repeat constructor.
Qed.

Lemma convert_loop_quiet this commands commandsList h :
  wp (for_of_acc commands commandsList
        (λ commandsList command,
           try_catch
             (commandData ← convertCommandToTopGGFormat this command;
              match commandData with
              | Some payload => mret (commandsList ++ [payload])
              | None => mret commandsList
              end)
             (λ error,
                logger Level.error
                  ("❌ Error converting command " +:+ cmd_name command
                     +:+ ": " +:+ message error);;
                mret commandsList))) h
    (λ r es, (∃ batch, r = Normal batch) ∧ Forall is_log es).
Proof.
  revert commandsList h.
  induction commands as [|command commands IH]; intros commandsList h.
  - cbn [for_of_acc]. apply wp_ret. split; [by eexists|constructor].
  - cbn [for_of_acc]. apply wp_bind, wp_try, wp_bind.
    eapply wp_mono; [apply convertCommand_quiet|].
    intros r es [[payload ->] Hes]. cbv beta.
    destruct payload as [payload|]; apply wp_ret.
    all: eapply wp_mono; [apply IH|].
    all: intros r' es' [Hr' Hes']; cbv beta.
    all: split; [done|]; rewrite ?app_nil_r; by apply Forall_app.
Qed.

(** Collecting the batch never throws and never posts to the directory. *)
Lemma getBotCommands_quiet this h :
  wp (getBotCommandsForTopGG world this) h
    (λ r es, (∃ batch, r = Normal batch) ∧ directory_posts es = []).
Proof.
  unfold getBotCommandsForTopGG, fetch_commands.
  apply wp_try. destruct (application (client this)) as [app|].
  - apply wp_bind. unfold wp at 1. cbn [fst snd].
    destruct (commands_fetch world h) as [commands|e].
    + eapply wp_mono; [apply convert_loop_quiet|].
      intros r es [[batch ->] Hes]. cbv beta. split; [by eexists|].
      by read_trace.
    + wp_run. split; [by eexists|]. by read_trace.
  - wp_run. split; [by eexists|]. by read_trace.
Qed.

Lemma status_ok_iff response :
  (status response =? 200)%Z || (status response =? 204)%Z = true
  ↔ status response = 200%Z ∨ status response = 204%Z.
Proof. rewrite orb_true_iff, !Z.eqb_eq. done. Qed.

(** C3.  [postCommandsToTopGG] always completes normally with a boolean:
    no exception leaves it.  If its POST to the directory was answered
    with a status, the boolean is [true] exactly when the status is 200 or
    204; if the POST threw, it is [false]; and it is [true] only if a POST
    was answered. *)
Theorem publish_result this h :
  ∃ published,
    (postCommandsToTopGG world this h).1 = Normal published
    ∧ (∀ u hs body response,
         AxiosPost u hs body (Normal response) ∈ (postCommandsToTopGG world this h).2 →
         published = true ↔ status response = 200%Z ∨ status response = 204%Z)
    ∧ (∀ u hs body e,
         AxiosPost u hs body (Throw e) ∈ (postCommandsToTopGG world this h).2 →
         published = false)
    ∧ (published = true →
       ∃ u hs body response,
         AxiosPost u hs body (Normal response) ∈ (postCommandsToTopGG world this h).2).
Proof.
  change (wp (postCommandsToTopGG world this) h
    (λ r es, ∃ published, r = Normal published
       ∧ (∀ u hs body response,
            AxiosPost u hs body (Normal response) ∈ es →
            published = true ↔ status response = 200%Z ∨ status response = 204%Z)
       ∧ (∀ u hs body e, AxiosPost u hs body (Throw e) ∈ es → published = false)
       ∧ (published = true →
          ∃ u hs body response, AxiosPost u hs body (Normal response) ∈ es))).
  unfold postCommandsToTopGG.
  set (post := λ (r : Completion bool) (es : Trace), _).
  repeat wp_step.
  2: { eapply wp_mono; [apply getBotCommands_quiet|].
       intros r es [[batch ->] Hquiet]. cbv beta. repeat wp_step.
       all: subst post; cbv beta; eexists; (split; [reflexivity|]).
       all: split; [|split].
       all: try (intros u hs body answer Hin; apply elem_of_directory_posts in Hin;
                 read_trace_in Hin;
                 rewrite ?elem_of_nil, ?list_elem_of_singleton in Hin; simplify_eq).
       all: try done.
       - by rewrite <- status_ok_iff, Heqb1.
       - intros _. do 4 eexists. find_event.
       - by rewrite <- status_ok_iff, Heqb1. }
  subst post; cbv beta. eexists. split; [reflexivity|].
  split; [|split]; try done.
  all: intros u hs body answer Hin; apply elem_of_directory_posts in Hin.
  all: read_trace_in Hin; by apply elem_of_nil in Hin.
Qed.

(** C4.  If the credential is falsy (unset or empty), or if the batch of
    converted commands is empty, [postCommandsToTopGG] returns [false] and
    the trace of the call holds no POST to the directory. *)
Theorem publish_without_credential_or_batch this h :
  truthy (commandsToken this) = false
  ∨ (getBotCommandsForTopGG world this h).1 = Normal [] →
  (postCommandsToTopGG world this h).1 = Normal false
  ∧ ∀ u hs body answer,
      AxiosPost u hs body answer ∉ (postCommandsToTopGG world this h).2.
Proof.
  intros Hcases.
  change (wp (postCommandsToTopGG world this) h
    (λ r es, r = Normal false ∧ ∀ u hs body answer, AxiosPost u hs body answer ∉ es)).
  unfold postCommandsToTopGG.
  destruct (truthy (commandsToken this)) eqn:Htoken; cbn [negb].
  - destruct Hcases as [?|Hbatch]; [done|].
    apply wp_try, wp_bind.
    pose proof (getBotCommands_quiet this h) as Hquiet. unfold wp in Hquiet.
    unfold wp at 1. rewrite Hbatch. destruct Hquiet as [_ Hquiet].
    wp_run; try discriminate. split; [done|].
    intros u hs body answer Hin. apply elem_of_directory_posts in Hin.
    read_trace_in Hin. by apply elem_of_nil in Hin.
  - wp_run. split; [done|].
    intros u hs body answer Hin. apply elem_of_directory_posts in Hin.
    read_trace_in Hin. by apply elem_of_nil in Hin.
Qed.

End Publisher.

(** * The periodic timer *)

Section Timer.
Import PeriodicUpdates.

Lemma run_app s actions1 actions2 :
  run s (actions1 ++ actions2) = run (run s actions1) actions2.
Proof. apply foldl_app. Qed.

Lemma never_started_step s a :
  a ≠ Start → never_started s → never_started (step s a) ∧ step s a = s.
Proof.
  intros Ha [Hidle Hnone]. destruct a as [| |handle]; [done| |].
  - unfold step, stopPeriodicUpdates. by rewrite Hnone.
  - unfold step, interval_elapsed. unfold idle in Hidle.
    by rewrite Hidle, lookup_empty.
Qed.

Lemma never_started_run s actions :
  Forall (λ a, a ≠ Start) actions → never_started s → run s actions = s.
Proof.
  intros Hactions. revert s.
  induction Hactions as [|a actions Ha _ IH]; intros s Hs; [done|].
  unfold run in *. simpl.
  destruct (never_started_step s a Ha Hs) as [Hs' Heq]. rewrite Heq. by apply IH.
Qed.

Lemma start_never_started s :
  never_started s → started_once (next_handle (runtime s)) (step s Start).
Proof.
  intros [Hidle Hnone]. split; [done|].
  intros other Hother. simpl. unfold idle in Hidle.
  rewrite lookup_insert_ne by done. by rewrite Hidle, lookup_empty.
Qed.

Lemma started_once_step handle s a :
  a ≠ Start → started_once handle s → started_once handle (step s a).
Proof.
  intros Ha [Hhandle Hothers]. destruct a as [| |elapsed]; [done| |].
  - unfold step, stopPeriodicUpdates. rewrite Hhandle. split; [done|].
    intros other Hother. simpl. rewrite lookup_delete_ne by done. by apply Hothers.
  - unfold step, interval_elapsed. by destruct (_ !! elapsed).
Qed.

Lemma started_once_run handle s actions :
  Forall (λ a, a ≠ Start) actions → started_once handle s →
  started_once handle (run s actions).
Proof.
  intros Hactions. revert s.
  induction Hactions as [|a actions Ha _ IH]; intros s Hs; [done|].
  unfold run in *. simpl. by apply IH, started_once_step.
Qed.

Lemma stop_started_once handle s :
  started_once handle s →
  idle (step s Stop) ∧ periodicCommandsInterval (step s Stop) = Some handle.
Proof.
  intros [Hhandle Hothers]. unfold step, stopPeriodicUpdates. rewrite Hhandle.
  split; [|done]. unfold idle. simpl. apply map_eq. intros other.
  rewrite lookup_empty. destruct (decide (other = handle)) as [->|Hother].
  - apply lookup_delete_eq.
  - rewrite lookup_delete_ne by done. by apply Hothers.
Qed.

Lemma idle_step s a :
  a ≠ Start → idle s → idle (step s a) ∧ publishes (step s a) = publishes s.
Proof.
  unfold idle. intros Ha Hidle. destruct a as [| |elapsed]; [done| |].
  - unfold step, stopPeriodicUpdates. destruct (periodicCommandsInterval s); [|done].
    simpl. by rewrite Hidle, delete_empty.
  - unfold step, interval_elapsed. by rewrite Hidle, lookup_empty.
Qed.

Lemma idle_run s actions :
  Forall (λ a, a ≠ Start) actions → idle s →
  publishes (run s actions) = publishes s.
Proof.
  intros Hactions. revert s.
  induction Hactions as [|a actions Ha _ IH]; intros s Hs; [done|].
  unfold run in *. simpl.
  destruct (idle_step s a Ha Hs) as [Hs' Heq]. rewrite IH by done. done.
Qed.

Lemma stop_twice s :
  (stopPeriodicUpdates (stopPeriodicUpdates s).1).1 = (stopPeriodicUpdates s).1.
Proof.
  unfold stopPeriodicUpdates.
  destruct (periodicCommandsInterval s) as [handle|] eqn:Hhandle; simpl.
  - unfold clearInterval. simpl. by rewrite delete_delete_eq.
  - by rewrite Hhandle.
Qed.

(** C9.  In an execution from a fresh object in which
    [startPeriodicUpdates] is called once and [stopPeriodicUpdates] is
    called later, whatever timers elapse and however often stop is called
    again, the number of publish invocations no longer changes after that
    stop.  Stopping twice leaves the state stopping once leaves, and
    stopping an object that was never started changes nothing and logs
    nothing. *)
Theorem stop_ends_periodic_publishes first before between after :
  Forall (λ a, a ≠ Start) before →
  Forall (λ a, a ≠ Start) between →
  Forall (λ a, a ≠ Start) after →
  publishes (run (initial first) (before ++ [Start] ++ between ++ [Stop] ++ after))
  = publishes (run (initial first) (before ++ [Start] ++ between ++ [Stop]))
  ∧ (∀ s, (stopPeriodicUpdates (stopPeriodicUpdates s).1).1
          = (stopPeriodicUpdates s).1)
  ∧ stopPeriodicUpdates (run (initial first) before)
    = (run (initial first) before, []).
Proof.
  intros Hbefore Hbetween Hafter.
  assert (never_started (initial first)) as Hinit by done.
  split; [|split].
  - rewrite !app_assoc, run_app, <- !app_assoc.
    apply idle_run; [done|].
    rewrite !run_app. rewrite (never_started_run _ before) by done.
    change (run ?s [Stop]) with (step s Stop).
    change (run ?s [Start]) with (step s Start).
    eapply stop_started_once, started_once_run; [done|].
    by apply start_never_started.
  - apply stop_twice.
  - rewrite never_started_run by done. done.
Qed.

(** C10.  From any state, a second [startPeriodicUpdates] without a stop
    in between overwrites the stored handle with the handle of the new
    timer; the following [stopPeriodicUpdates] clears the second timer
    only, the first one is still running, and when its delay elapses a
    publish is invoked. *)
Theorem second_start_leaks_first_timer s :
  let first := next_handle (runtime s) in
  let second := Pos.succ first in
  periodicCommandsInterval (run s [Start]) = Some first
  ∧ periodicCommandsInterval (run s [Start; Start]) = Some second
  ∧ intervals (runtime (run s [Start; Start; Stop])) !! second = None
  ∧ intervals (runtime (run s [Start; Start; Stop])) !! first = Some 86400000%Z
  ∧ publishes (run s [Start; Start; Stop; Elapsed first]) = S (publishes s).
Proof.
  intros first second.
  assert (first ≠ second) as Hne by (unfold second; lia).
  assert (intervals (runtime (run s [Start; Start; Stop])) !! first
          = Some 86400000%Z) as Hfirst.
  { cbn. rewrite lookup_delete_ne by done.
    rewrite lookup_insert_ne by done. apply lookup_insert_eq. }
  repeat split.
  - cbn. apply lookup_delete_eq.
  - done.
  - change (run s [Start; Start; Stop; Elapsed first])
      with (interval_elapsed first (run s [Start; Start; Stop])).
    unfold interval_elapsed. by rewrite Hfirst.
Qed.

End Timer.

Section Evidence.
Import Observe Merge PeriodicUpdates.

(** The merge on the specification's example: one protected command is
    registered, and both variants are run against it. *)
Lemma sync_sends_merged_list_witness :
  application Example.ready_client = Some Example.app
  ∧ rest_get Example.accepting [] (route_for Example.app None)
    = Normal [Example.entrypoint]
  ∧ (∃ combined answer,
       puts (CommandSyncer.syncCommands Example.accepting Example.ready_client None []).2
       = [(route_for Example.app None, combined, answer)]
       ∧ merge_policy CommandSyncer.newCommands [Example.entrypoint] combined)
  ∧ (∃ answer,
       puts (BareSyncer.syncCommands Example.accepting Example.ready_client None []).2
       = [(route_for Example.app None, [Example.entrypoint], answer)]).
Proof.
  split; [reflexivity|]. split; [reflexivity|].
  apply (sync_sends_merged_list Example.accepting Example.ready_client None
           Example.app [] [Example.entrypoint]); reflexivity.
Defined.

(** C1 as stated fails for the variant without example commands: with one
    protected command registered, its bulk overwrite does not follow the
    merge policy for [ping] and [info]. *)
Lemma bare_sync_sends_no_desired_command :
  application Example.ready_client = Some Example.app
  ∧ rest_get Example.accepting [] (route_for Example.app None)
    = Normal [Example.entrypoint]
  ∧ ¬ ∃ combined answer,
        puts (BareSyncer.syncCommands Example.accepting Example.ready_client None []).2
        = [(route_for Example.app None, combined, answer)]
        ∧ merge_policy CommandSyncer.newCommands [Example.entrypoint] combined.
Proof.
  split; [reflexivity|]. split; [reflexivity|].
  intros (combined & answer & Hputs & Hpolicy).
  vm_compute in Hputs. injection Hputs as <- _.
  pose proof (missing_appended _ _ _ Hpolicy) as Happended.
  vm_compute in Happended. discriminate.
Qed.

(** A platform that protects its entry point command and already has a
    [ping]: the fallback creates [info] only and returns 1. *)
Lemma sync_falls_back_on_entry_point_witness :
  let run :=
    CommandSyncer.syncCommands Example.protecting Example.ready_client None [] in
  let route := route_for Example.app None in
  let body := mergeCommands [Example.entrypoint; Example.old_ping] CommandSyncer.newCommands in
  let e := {| message := "Invalid Form Body: cannot remove the Entry Point command" |} in
  RestPut route body (Throw e) ∈ run.2
  ∧ includes (message e) "Entry Point" = true
  ∧ (posts run.2).*1 = (λ c, (route, c)) <$> CommandSyncer.newCommands
  ∧ run.1 = Normal 1
  ∧ Log Level.info "ℹ️ Command ping already exists, skipping" ∈ run.2.
Proof.
  intros run route body e. subst run.
  match goal with |- ?P ∧ _ => assert P as Hput by (vm_compute; find_event) end.
  destruct (sync_falls_back_on_entry_point Example.protecting Example.ready_client
              None [] route body e) as [Hindex _].
  destruct (Hindex Hput) as [Hfallback _].
  destruct (Hfallback eq_refl) as (Hposts & Hcount & Hlogged).
  split; [exact Hput|]. split; [reflexivity|]. split; [exact Hposts|]. split.
  - rewrite Hcount. reflexivity.
  - apply (Hlogged (toJSON (setDescription "Check bot latency"
                              (setName "ping" newSlashCommandBuilder)))
             {| message := "Command with this name already exists" |}).
    + vm_compute. find_event.
    + reflexivity.
Defined.

(** C2 as stated fails for the variant without example commands: the bulk
    overwrite throws an "Entry Point" error and no command is created. *)
Lemma bare_sync_has_no_fallback :
  let run := BareSyncer.syncCommands Example.protecting Example.ready_client None [] in
  let route := route_for Example.app None in
  let e := {| message := "Invalid Form Body: cannot remove the Entry Point command" |} in
  RestPut route [Example.entrypoint; Example.old_ping] (Throw e) ∈ run.2
  ∧ includes (message e) "Entry Point" = true
  ∧ (posts run.2).*1 ≠ (λ c, (route, c)) <$> CommandSyncer.newCommands
  ∧ run.1 = Normal 0.
Proof.
  intros run route e. split; [vm_compute; find_event|].
  split; [reflexivity|]. split; [|reflexivity].
  vm_compute. discriminate.
Qed.

(** A directory that answers 204: the publish returns [true]. *)
Lemma publish_result_witness :
  let run := TopGGIntegration.postCommandsToTopGG Example.accepting Example.bot [] in
  (∃ u hs body response,
     AxiosPost u hs body (Normal response) ∈ run.2 ∧ status response = 204%Z)
  ∧ run.1 = Normal true.
Proof.
  intros run. subst run.
  match goal with |- ?P ∧ _ => assert P as Hposted end.
  { do 4 eexists. split; [vm_compute; find_event|reflexivity]. }
  split; [exact Hposted|].
  destruct Hposted as (u & hs & body & response & Hin & Hstatus).
  destruct (publish_result Example.accepting Example.bot [])
    as (published & Hresult & Hok & _ & _).
  rewrite Hresult. f_equal.
  apply (Hok u hs body response Hin). by right.
Defined.

(** A bot without token, and a bot whose commands cannot be fetched. *)
Lemma publish_without_credential_or_batch_witness :
  (truthy (TopGGIntegration.commandsToken Example.bot_without_token) = false
   ∧ (TopGGIntegration.postCommandsToTopGG Example.accepting
        Example.bot_without_token []).1 = Normal false
   ∧ ∀ u hs body answer,
       AxiosPost u hs body answer
       ∉ (TopGGIntegration.postCommandsToTopGG Example.accepting
            Example.bot_without_token []).2)
  ∧ ((TopGGIntegration.getBotCommandsForTopGG Example.unreachable Example.bot []).1
     = Normal []
     ∧ (TopGGIntegration.postCommandsToTopGG Example.unreachable Example.bot []).1
       = Normal false
     ∧ ∀ u hs body answer,
         AxiosPost u hs body answer
         ∉ (TopGGIntegration.postCommandsToTopGG Example.unreachable Example.bot []).2).
Proof.
  split.
  - split; [reflexivity|].
    apply (publish_without_credential_or_batch Example.accepting
             Example.bot_without_token []).
    left. reflexivity.
  - split; [reflexivity|].
    apply (publish_without_credential_or_batch Example.unreachable Example.bot []).
    right. reflexivity.
Defined.

(** A guild sync against a platform whose command list cannot be
    fetched. *)
Lemma sync_survives_failed_fetch_witness :
  let e := {| message := "connect ETIMEDOUT" |} in
  let route := route_for Example.app (Some "guild-9") in
  application Example.ready_client = Some Example.app
  ∧ rest_get Example.unreachable [] route = Throw e
  ∧ (Log Level.warn "⚠️ Could not fetch existing commands: connect ETIMEDOUT"
       ∈ (CommandSyncer.syncCommands Example.unreachable Example.ready_client
            (Some "guild-9") []).2
     ∧ ∃ answer,
         puts (CommandSyncer.syncCommands Example.unreachable Example.ready_client
                 (Some "guild-9") []).2
         = [(route, CommandSyncer.newCommands, answer)])
  ∧ BareSyncer.syncCommands Example.unreachable Example.ready_client (Some "guild-9") []
    = (Normal 0,
       [RestGet route (Throw e);
        Log Level.error "❌ Error syncing commands: connect ETIMEDOUT"]).
Proof.
  intros e route. split; [reflexivity|]. split; [reflexivity|].
  apply (sync_survives_failed_fetch Example.unreachable Example.ready_client
           (Some "guild-9") Example.app [] e); reflexivity.
Defined.

(** C5 as stated fails for the variant without example commands: after a
    failed fetch no bulk overwrite with the desired commands is sent. *)
Lemma bare_sync_aborts_on_failed_fetch :
  let e := {| message := "connect ETIMEDOUT" |} in
  let route := route_for Example.app None in
  application Example.ready_client = Some Example.app
  ∧ rest_get Example.unreachable [] route = Throw e
  ∧ ¬ ∃ answer,
        puts (BareSyncer.syncCommands Example.unreachable Example.ready_client None []).2
        = [(route, CommandSyncer.newCommands, answer)].
Proof.
  intros e route. split; [reflexivity|]. split; [reflexivity|].
  intros [answer Hputs]. vm_compute in Hputs. discriminate.
Qed.

(** The conversion of a user context-menu command. *)
Lemma context_menu_conversion_witness :
  application (TopGGIntegration.client Example.bot) = Some Example.app
  ∧ (cmd_type Example.report_user = ApplicationCommandType.User
     ∨ cmd_type Example.report_user = ApplicationCommandType.Message)
  ∧ ∃ payload,
      (TopGGIntegration.convertCommandToTopGGFormat Example.bot Example.report_user []).1
      = Normal (Some payload)
      ∧ tg_type payload = cmd_type Example.report_user
      ∧ tg_description payload = "".
Proof.
  split; [reflexivity|]. split; [left; reflexivity|].
  apply (context_menu_conversion Example.bot Example.report_user [] Example.app).
  - reflexivity.
  - left. reflexivity.
Defined.

(** The conversion of a slash command without description. *)
Lemma chat_input_conversion_witness :
  application (TopGGIntegration.client Example.bot) = Some Example.app
  ∧ cmd_type Example.weather = ApplicationCommandType.ChatInput
  ∧ ∃ payload,
      (TopGGIntegration.convertCommandToTopGGFormat Example.bot Example.weather []).1
      = Normal (Some payload)
      ∧ tg_type payload = 1%Z
      ∧ (∀ description, cmd_description Example.weather = Some description →
           description ≠ "" → tg_description payload = description)
      ∧ (cmd_description Example.weather = None
         ∨ cmd_description Example.weather = Some "" →
           tg_description payload = "No description").
Proof.
  split; [reflexivity|]. split; [reflexivity|].
  apply (chat_input_conversion Example.bot Example.weather [] Example.app); reflexivity.
Defined.

(** The conversion of a subcommand reaches its option. *)
Lemma option_conversion_witness :
  opt_options Example.show_option = Some [Example.unit_option]
  ∧ [Example.unit_option] ≠ []
  ∧ tgo_options (TopGGIntegration.convertOptionToTopGGFormat Example.show_option)
    = Some [TopGGIntegration.convertOptionToTopGGFormat Example.unit_option].
Proof.
  split; [reflexivity|]. split; [discriminate|].
  apply (proj2 (option_conversion Example.show_option) [Example.unit_option]).
  - reflexivity.
  - discriminate.
Defined.

(** An execution with a start, two periods, a stop and more activity. *)
Lemma stop_ends_periodic_publishes_witness :
  let before := [Elapsed 1%positive; Stop] in
  let between := [Elapsed 1%positive; Elapsed 1%positive] in
  let after := [Elapsed 1%positive; Stop; Elapsed 1%positive] in
  Forall (λ a, a ≠ Start) before
  ∧ Forall (λ a, a ≠ Start) between
  ∧ Forall (λ a, a ≠ Start) after
  ∧ publishes (run (initial 1%positive) (before ++ [Start] ++ between ++ [Stop] ++ after))
    = publishes (run (initial 1%positive) (before ++ [Start] ++ between ++ [Stop])).
Proof.
  intros before between after.
  assert (Forall (λ a, a ≠ Start) before) as Hbefore
    by (repeat constructor; discriminate).
  assert (Forall (λ a, a ≠ Start) between) as Hbetween
    by (repeat constructor; discriminate).
  assert (Forall (λ a, a ≠ Start) after) as Hafter
    by (repeat constructor; discriminate).
  split; [exact Hbefore|]. split; [exact Hbetween|]. split; [exact Hafter|].
  exact (proj1 (stop_ends_periodic_publishes 1%positive before between after
                  Hbefore Hbetween Hafter)).
Defined.

End Evidence.

(** * More on the command synchronizers *)

Section RequestFacts.
Import Observe Requests.

Lemma requests_app es1 es2 : requests (es1 ++ es2) = requests es1 ++ requests es2.
Proof. apply omap_app. Qed.

Lemma requests_cons ev es :
  requests (ev :: es)
  = match request ev with Some r => [r] | None => [] end ++ requests es.
Proof. unfold requests. simpl. by destruct (request ev). Qed.

Lemma requests_nil : requests [] = [].
Proof. done. Qed.

Lemma requests_logs es : Forall is_log es → requests es = [].
Proof. induction 1 as [|[] es H _ IH]; try done. Qed.

End RequestFacts.

Ltac read_requests_step :=
  match goal with
  | |- context [Requests.requests (_ ++ _)] => rewrite requests_app
  | |- context [Requests.requests (_ :: _)] => rewrite requests_cons
  | |- context [Requests.requests []] => rewrite requests_nil
  | Hl : Forall Observe.is_log ?es |- context [Requests.requests ?es] =>
      rewrite (requests_logs es Hl)
  end.

Ltac read_requests :=
  repeat read_requests_step;
  cbn [Requests.request Datatypes.app fmap list_fmap fst snd].

(** The stepper of the runs, without normalising histories. *)
Ltac wp_go_step :=
  lazymatch goal with
  | |- Observe.wp (for_of_acc _ _ CommandSyncer.merge_step) _ _ =>
      let lines := fresh "lines" in
      let Hlines := fresh "Hlines" in
      apply wp_merge_loop; intros lines Hlines
  | |- Observe.wp (mbind _ _) _ _ => apply wp_bind
  | |- Observe.wp (try_catch _ _) _ _ => apply wp_try
  | |- Observe.wp (mret _) _ _ => apply wp_ret
  | |- Observe.wp (ret _) _ _ => apply wp_ret
  | |- Observe.wp (throw _) _ _ => apply wp_throw
  | |- Observe.wp (logger _ _) _ _ => apply wp_logger
  | |- Observe.wp (Rest.get _ _) _ _ => apply wp_get
  | |- Observe.wp (Rest.put _ _ _) _ _ => apply wp_put
  | |- Observe.wp (Rest.post _ _ _) _ _ => apply wp_post
  | |- Observe.wp (TopGGIntegration.axios_post_call _ _ _ _) _ _ => apply wp_axios_post
  | |- Observe.wp (Rest.scope_route _ _) _ _ => apply wp_scope_route
  | |- Observe.wp (application_id _) _ _ => apply wp_application_id
  | |- Observe.wp (if ?b then _ else _) _ _ => destruct b eqn:?
  | |- Observe.wp (match (if ?b then _ else _) with pair _ _ => _ end) _ _ =>
      destruct b eqn:?; cbn beta iota
  | |- Observe.wp (for_of_acc (_ :: _) _ _) _ _ => cbn [for_of_acc]
  | |- Observe.wp (for_of_acc [] _ _) _ _ => cbn [for_of_acc]
  | H : ?a = Some _ |- match ?a with Some _ => _ | None => _ end => rewrite H
  | H : ?a = None |- match ?a with Some _ => _ | None => _ end => rewrite H
  | H : ?a = Normal _ |- match ?a with Normal _ => _ | Throw _ => _ end => rewrite H
  | H : ?a = Throw _ |- match ?a with Normal _ => _ | Throw _ => _ end => rewrite H
  | |- match ?a with Normal _ => _ | Throw _ => _ end =>
      let E := fresh "Hanswer" in destruct a eqn:E
  | |- match ?a with Some _ => _ | None => _ end =>
      let E := fresh "Hvalue" in destruct a eqn:E
  end;
  cbv beta.

Ltac wp_go :=
  lazymatch goal with
  | |- Observe.wp ?m ?h ?Q =>
      let post := fresh "post" in
      set (post := Q); repeat wp_go_step; subst post; cbv beta
  end.

Ltac unfold_syncers :=
  unfold CommandSyncer.syncCommands, CommandSyncer.fetch_existing,
    CommandSyncer.createCommandsIndividually, CommandSyncer.commands,
    BareSyncer.syncCommands.

Section SyncerFacts.
Import Observe Merge Requests.

(** X1.  [syncCommands] of [discordjs/index.js] never throws: whatever the
    platform answers, and whether or not the client is ready, the call
    completes normally with a count. *)
Theorem sync_always_returns world client guildId h :
  ∃ count, (CommandSyncer.syncCommands world client guildId h).1 = Normal count.
Proof.
  change (wp (CommandSyncer.syncCommands world client guildId) h
            (λ r _, ∃ count, r = Normal count)).
  unfold_syncers. wp_go. all: by eexists.
Qed.

(** X2.  For a client with an application, a call of [syncCommands]
    makes either one GET followed by one PUT, or one GET, one PUT and two
    POSTs, in this order: the fetch is always attempted, the bulk
    overwrite is always sent once, and the individual creates come only
    after it, as a pair. *)
Theorem sync_request_sequence world client guildId h :
  application client ≠ None →
  (requests (CommandSyncer.syncCommands world client guildId h).2).*1 = [Get; Put]
  ∨ (requests (CommandSyncer.syncCommands world client guildId h).2).*1
    = [Get; Put; Post; Post].
Proof.
  intros Hready.
  change (wp (CommandSyncer.syncCommands world client guildId) h
            (λ _ es, (requests es).*1 = [Get; Put]
                     ∨ (requests es).*1 = [Get; Put; Post; Post])).
  unfold_syncers. wp_go. all: try done.
  all: read_requests; auto.
Qed.

(** X3.  While [client.application] is [null], [syncCommands] returns 0
    and sends no REST request. *)
Theorem sync_without_application world client guildId h :
  application client = None →
  (CommandSyncer.syncCommands world client guildId h).1 = Normal 0
  ∧ requests (CommandSyncer.syncCommands world client guildId h).2 = [].
Proof.
  intros Hnull.
  change (wp (CommandSyncer.syncCommands world client guildId) h
            (λ r es, r = Normal 0 ∧ requests es = [])).
  unfold_syncers. wp_go. all: try done.
  all: split; [done|]; by read_requests.
Qed.

Lemma sync_requests_route world client guildId app h :
  application client = Some app →
  Forall (λ q, q.2 = route_for app guildId)
    (requests (CommandSyncer.syncCommands world client guildId h).2).
Proof.
  intros Hready.
  change (wp (CommandSyncer.syncCommands world client guildId) h
            (λ _ es, Forall (λ q, q.2 = route_for app guildId) (requests es))).
  unfold_syncers. wp_go.
  all: read_requests; repeat constructor.
Qed.

(** X4.  Every REST request of a [syncCommands] call of a ready client
    goes to one route: the global route of the application when the guild
    id is missing or the empty string, the route of that guild otherwise.
    This includes the creates of the fallback. *)
Theorem sync_scope world client guildId app h :
  application client = Some app →
  (guildId = None ∨ guildId = Some "" →
   Forall (λ q, q.2 = applicationCommands (app_id app))
     (requests (CommandSyncer.syncCommands world client guildId h).2))
  ∧ (∀ guild, guildId = Some guild → guild ≠ "" →
     Forall (λ q, q.2 = applicationGuildCommands (app_id app) guild)
       (requests (CommandSyncer.syncCommands world client guildId h).2)).
Proof.
  intros Hready.
  pose proof (sync_requests_route world client guildId app h Hready) as Hroute.
  split.
  - by intros [->| ->].
  - intros guild -> Hguild. unfold route_for, truthy in Hroute. simpl in Hroute.
    by destruct (String.eqb_spec guild "").
Qed.

(** X5.  If the bulk overwrite of a [syncCommands] call is answered, the
    call returns the length of the list in the answer (not of the list it
    sent) and creates no command individually. *)
Theorem sync_returns_platform_count world client guildId h route body synced :
  RestPut route body (Normal synced)
    ∈ (CommandSyncer.syncCommands world client guildId h).2 →
  (CommandSyncer.syncCommands world client guildId h).1 = Normal (length synced)
  ∧ posts (CommandSyncer.syncCommands world client guildId h).2 = [].
Proof.
  change (wp (CommandSyncer.syncCommands world client guildId) h
            (λ r es, RestPut route body (Normal synced) ∈ es →
                     r = Normal (length synced) ∧ posts es = [])).
  unfold_syncers. wp_go.
  all: intros Hput; apply elem_of_puts in Hput; read_trace_in Hput.
  all: rewrite ?elem_of_nil, ?list_elem_of_singleton in Hput; simplify_eq.
  all: by read_trace.
Qed.

(** X6.  [createCommandsIndividually] never throws; it returns the
    number of its POSTs that were answered, at most 2; a client with an
    application sends exactly two POSTs, a client without one sends
    none. *)
Theorem createCommandsIndividually_counts world client guildId h :
  ∃ created,
    (CommandSyncer.createCommandsIndividually world client guildId h).1 = Normal created
    ∧ created
      = length (filter (λ p, is_normal p.2)
                  (posts (CommandSyncer.createCommandsIndividually world client guildId h).2))
    ∧ (created ≤ 2)%nat
    ∧ (application client = None →
       requests (CommandSyncer.createCommandsIndividually world client guildId h).2 = [])
    ∧ (application client ≠ None →
       (requests (CommandSyncer.createCommandsIndividually world client guildId h).2).*1
       = [Post; Post]).
Proof.
  change (wp (CommandSyncer.createCommandsIndividually world client guildId) h
            (λ r es, ∃ created, r = Normal created
               ∧ created = length (filter (λ p, is_normal p.2) (posts es))
               ∧ (created ≤ 2)%nat
               ∧ (application client = None → requests es = [])
               ∧ (application client ≠ None → (requests es).*1 = [Post; Post]))).
  unfold_syncers. wp_go.
  all: eexists; split; [reflexivity|].
  all: read_trace; read_requests.
  all: split; [reflexivity|]; split; [lia|]; split; [congruence|congruence].
Qed.

(** ** What the merge keeps *)



Lemma merge_names (l ds : list RestCommand) :
  NoDup (rc_name <$> ds) →
  rc_name <$> mergeCommands l ds
  = (rc_name <$> l) ++ (rc_name <$> filter (λ d, rc_name d ∉ rc_name <$> l) ds).
Proof.
  intros Hnd.
  rewrite <- (take_drop (length l) (mergeCommands l ds)) at 1.
  by rewrite fmap_app, merge_names_stable, merge_missing_appended.
Qed.

Lemma first_named_exists name (l : list RestCommand) :
  name ∈ rc_name <$> l → ∃ i, first_named name l i.
Proof.
  induction l as [|c l IH]; intros Hin; [by apply elem_of_nil in Hin|].
  destruct (decide (rc_name c = name)) as [E|E].
  - exists 0. split; [by exists c|]. intros j ? Hj. lia.
  - rewrite fmap_cons in Hin. apply elem_of_cons in Hin as [Hin|Hin]; [done|].
    destruct (IH Hin) as [i Hi]. exists (S i). by apply first_named_tail_inv.
Qed.

Lemma merge_contains_desired (l ds : list RestCommand) d :
  NoDup (rc_name <$> ds) → d ∈ ds → d ∈ mergeCommands l ds.
Proof.
  intros Hnd Hd. destruct (decide (rc_name d ∈ rc_name <$> l)) as [Hin|Hout].
  - destruct (first_named_exists _ _ Hin) as [i Hi].
    apply list_elem_of_lookup. exists i. by apply merge_replaced_in_place.
  - rewrite <- (take_drop (length l) (mergeCommands l ds)).
    apply elem_of_app. right. rewrite merge_missing_appended by done.
    by apply list_elem_of_filter.
Qed.

Lemma merge_names_NoDup (l ds : list RestCommand) :
  NoDup (rc_name <$> ds) → NoDup (rc_name <$> l) →
  NoDup (rc_name <$> mergeCommands l ds).
Proof.
  intros Hds Hl. rewrite merge_names by done. apply NoDup_app. split; [done|]. split.
  - intros name Hname [d [-> Hd]]%list_elem_of_fmap.
    by apply list_elem_of_filter in Hd as [Hd _].
  - by apply NoDup_names_filter.
Qed.


(** X8.  The list of the bulk overwrite holds every desired command
    itself; its names are the fetched names, in order, followed by those
    of [ping] and [info] that were not fetched; and if the fetched names
    are distinct, so are the names sent. *)
Theorem sync_keeps_names_unique world client guildId app h existing :
  application client = Some app →
  rest_get world h (route_for app guildId) = Normal existing →
  ∃ combined answer,
    puts (CommandSyncer.syncCommands world client guildId h).2
    = [(route_for app guildId, combined, answer)]
    ∧ (∀ d, d ∈ CommandSyncer.newCommands → d ∈ combined)
    ∧ rc_name <$> combined
      = (rc_name <$> existing)
        ++ filter (λ name, name ∉ rc_name <$> existing) ["ping"; "info"]
    ∧ (NoDup (rc_name <$> existing) → NoDup (rc_name <$> combined)).
Proof.
  intros Hready Hget.
  destruct (sync_puts_merged world client guildId app h existing Hready Hget)
    as [answer Hputs].
  exists (mergeCommands existing CommandSyncer.newCommands), answer.
  split; [done|]. split; [|split].
  - intros d. apply merge_contains_desired, newCommands_NoDup.
  - rewrite merge_names by apply newCommands_NoDup. f_equal.
    unfold CommandSyncer.newCommands, CommandSyncer.commands. simpl.
    rewrite !filter_cons, filter_nil. simpl.
    by repeat case_decide.
  - apply merge_names_NoDup, newCommands_NoDup.
Qed.

(** ** The variant without example commands *)

(** X9.  The [syncCommands] of the variant without example commands never
    throws and never creates a command individually; it makes no request,
    a GET, or a GET and a PUT; it returns the length of the answer of its
    overwrite, and 0 when no overwrite was answered. *)
Theorem bare_sync_outcomes world client guildId h :
  ∃ count,
    (BareSyncer.syncCommands world client guildId h).1 = Normal count
    ∧ posts (BareSyncer.syncCommands world client guildId h).2 = []
    ∧ ((requests (BareSyncer.syncCommands world client guildId h).2).*1 = []
       ∨ (requests (BareSyncer.syncCommands world client guildId h).2).*1 = [Get]
       ∨ (requests (BareSyncer.syncCommands world client guildId h).2).*1 = [Get; Put])
    ∧ (∀ route body synced,
         RestPut route body (Normal synced)
           ∈ (BareSyncer.syncCommands world client guildId h).2 →
         count = length synced)
    ∧ ((∀ route body synced,
          RestPut route body (Normal synced)
            ∉ (BareSyncer.syncCommands world client guildId h).2) →
       count = 0).
Proof.
  change (wp (BareSyncer.syncCommands world client guildId) h
            (λ r es, ∃ count, r = Normal count
               ∧ posts es = []
               ∧ ((requests es).*1 = [] ∨ (requests es).*1 = [Get]
                  ∨ (requests es).*1 = [Get; Put])
               ∧ (∀ route body synced,
                    RestPut route body (Normal synced) ∈ es → count = length synced)
               ∧ ((∀ route body synced, RestPut route body (Normal synced) ∉ es) →
                  count = 0))).
  unfold_syncers. wp_go.
  all: eexists; split; [reflexivity|].
  all: split; [by read_trace|].
  all: split; [read_requests; auto|].
  all: split.
  all: try (intros route body synced Hput; apply elem_of_puts in Hput;
            read_trace_in Hput;
            rewrite ?elem_of_nil, ?list_elem_of_singleton in Hput; by simplify_eq).
  all: try done.
  all: intros Hnone; exfalso; eapply Hnone; find_event.
Qed.

End SyncerFacts.

(** * More on the converter and the publisher *)

Section ConverterFacts.
Import Observe TopGGIntegration Shape.

Lemma or_string_filled v fallback : fallback ≠ "" → or_string v fallback ≠ "".
Proof.
  intros Hfallback. unfold or_string. destruct v as [s|]; [|done].
  by destruct (String.eqb_spec s "").
Qed.

Lemma convertOption_normalised option :
  normalised (convertOptionToTopGGFormat option).
Proof.
  induction option as [name description type required choices options IH]
    using ApplicationCommandOption_nested_ind.
  constructor; simpl.
  - by apply or_string_filled.
  - destruct choices as [[|choice choices]|]; done.
  - destruct options as [[|sub subs]|]; done.
  - destruct options as [[|sub subs]|]; simpl; [done| |done].
    intros subOptions [= <-]. specialize (IH _ eq_refl).
    change (Forall normalised (convertOptionToTopGGFormat <$> sub :: subs)).
    by apply Forall_fmap.
Qed.


Lemma convertCommand_history this command h :
  convertCommandToTopGGFormat this command h
  = convertCommandToTopGGFormat this command [].
Proof.
  unfold convertCommandToTopGGFormat, try_catch, mbind, async_bind, bind,
    application_id, logger, mret, async_ret, ret, throw.
  destruct (application (client this)); [|done].
  by destruct (_ || _).
Qed.

(** X11.  While [client.application] is [null],
    [convertCommandToTopGGFormat] returns [null] for every command and
    logs one error, which names the command and the failed read. *)
Theorem conversion_without_application this command h :
  application (client this) = None →
  convertCommandToTopGGFormat this command h
  = (Normal None,
     [Log Level.error
        ("❌ Error converting command " +:+ cmd_name command
           +:+ " to Top.gg format: Cannot read properties of null (reading 'id')")]).
Proof.
  intros Hnull. apply wp_run_eq.
  unfold convertCommandToTopGGFormat. wp_go. done.
Qed.

Lemma convertCommand_payload this command h payload :
  (convertCommandToTopGGFormat this command h).1 = Normal (Some payload) →
  ∃ app,
    application (client this) = Some app
    ∧ well_formed_payload (app_id app) payload
    ∧ tg_id payload = cmd_id command
    ∧ tg_name payload = cmd_name command.
Proof.
  change (wp (convertCommandToTopGGFormat this command) h
            (λ r _, r = Normal (Some payload) →
               ∃ app, application (client this) = Some app
                 ∧ well_formed_payload (app_id app) payload
                 ∧ tg_id payload = cmd_id command
                 ∧ tg_name payload = cmd_name command)).
  unfold convertCommandToTopGGFormat. wp_go.
  all: intros Hpayload; try discriminate; injection Hpayload as <-.
  all: eexists; split; [reflexivity|].
  all: split; [|done].
  all: unfold well_formed_payload; simpl.
  - apply orb_true_iff in Heqb as [E|E]; apply Z.eqb_eq in E; rewrite E.
    all: repeat split; try done; auto.
  - repeat split; try done; auto.
    + intros _. by apply or_string_filled.
    + by destruct (cmd_options command) as [[|o os]|].
    + intros options Hoptions.
      destruct (cmd_options command) as [[|o os]|]; simplify_eq/=.
      change (Forall normalised (convertOptionToTopGGFormat <$> o :: os)).
      apply Forall_fmap, Forall_forall. intros ? _. apply convertOption_normalised.
Qed.

Lemma convertCommand_ready this command h app :
  application (client this) = Some app →
  ∃ payload, convertCommandToTopGGFormat this command h = (Normal (Some payload), []).
Proof.
  intros Hready.
  cut (wp (convertCommandToTopGGFormat this command) h
         (λ r es, ∃ payload, r = Normal (Some payload) ∧ es = [])).
  { unfold wp. destruct (convertCommandToTopGGFormat this command h) as [r es].
    simpl. intros [payload [-> ->]]. by exists payload. }
  unfold convertCommandToTopGGFormat. wp_go. all: by eexists.
Qed.

End ConverterFacts.

Section BatchFacts.
Import Observe TopGGIntegration Shape.
Context (world : World).

(** The loop of [getBotCommandsForTopGG], for any client: what it adds to
    the list are payloads of fetched commands. *)
Lemma convert_loop_payloads this commands commandsList h :
  wp (for_of_acc commands commandsList
        (λ commandsList command,
           try_catch
             (commandData ← convertCommandToTopGGFormat this command;
              match commandData with
              | Some payload => mret (commandsList ++ [payload])
              | None => mret commandsList
              end)
             (λ error,
                logger Level.error
                  ("❌ Error converting command " +:+ cmd_name command
                     +:+ ": " +:+ message error);;
                mret commandsList))) h
    (λ r es, ∃ batch,
       r = Normal (commandsList ++ batch)
       ∧ Forall is_log es
       ∧ Forall (λ payload, ∃ command,
                   command ∈ commands
                   ∧ (convertCommandToTopGGFormat this command []).1
                     = Normal (Some payload)) batch).
Proof.
  revert commandsList h.
  induction commands as [|command commands IH]; intros commandsList h.
  - cbn [for_of_acc]. apply wp_ret. exists []. by rewrite app_nil_r.
  - cbn [for_of_acc]. apply wp_bind, wp_try, wp_bind.
    pose proof (convertCommand_quiet this command h) as Hquiet.
    unfold wp in Hquiet |- *.
    destruct (convertCommandToTopGGFormat this command h) as [r es] eqn:Hrun.
    simpl in Hquiet |- *. destruct Hquiet as [[payload ->] Hes].
    assert ((convertCommandToTopGGFormat this command []).1 = Normal payload)
      as Hpayload by (by rewrite <- (convertCommand_history this command h), Hrun).
    destruct payload as [payload|]; simpl.
    + specialize (IH (commandsList ++ [payload]) (h ++ es ++ [])).
      unfold wp in IH. destruct IH as (batch & -> & Hlines & Hbatch).
      exists (payload :: batch).
      split; [by rewrite <- (app_assoc commandsList [payload] batch)|]. split.
      * apply Forall_app. split; [|done]. apply Forall_app. by split.
      * constructor; [exists command; split; [left|done]|].
        eapply Forall_impl; [exact Hbatch|].
        intros p (c & Hc & Hp). exists c. split; [by right|done].
    + specialize (IH commandsList (h ++ es ++ [])).
      unfold wp in IH. destruct IH as (batch & -> & Hlines & Hbatch).
      exists batch. split; [done|]. split.
      * apply Forall_app. split; [|done]. apply Forall_app. by split.
      * eapply Forall_impl; [exact Hbatch|].
        intros p (c & Hc & Hp). exists c. split; [by right|done].
Qed.

(** The loop for a ready client: one payload per command, in order, and
    nothing logged. *)
Lemma convert_loop_ready this app commands commandsList h :
  application (client this) = Some app →
  wp (for_of_acc commands commandsList
        (λ commandsList command,
           try_catch
             (commandData ← convertCommandToTopGGFormat this command;
              match commandData with
              | Some payload => mret (commandsList ++ [payload])
              | None => mret commandsList
              end)
             (λ error,
                logger Level.error
                  ("❌ Error converting command " +:+ cmd_name command
                     +:+ ": " +:+ message error);;
                mret commandsList))) h
    (λ r es, ∃ batch,
       r = Normal (commandsList ++ batch)
       ∧ es = []
       ∧ Forall2 (λ command payload,
                    (convertCommandToTopGGFormat this command []).1
                    = Normal (Some payload)) commands batch).
Proof.
  intros Hready. revert commandsList h.
  induction commands as [|command commands IH]; intros commandsList h.
  - cbn [for_of_acc]. apply wp_ret. exists []. by rewrite app_nil_r.
  - cbn [for_of_acc]. apply wp_bind, wp_try, wp_bind.
    destruct (convertCommand_ready this command h app Hready) as [payload Hrun].
    unfold wp at 1. rewrite Hrun. cbn [fst snd]. apply wp_ret.
    specialize (IH (commandsList ++ [payload]) (h ++ [] ++ [])).
    unfold wp in IH |- *. destruct IH as (batch & -> & -> & Hbatch).
    exists (payload :: batch).
    split; [by rewrite <- (app_assoc commandsList [payload] batch)|].
    split; [done|]. constructor; [|done].
    by rewrite <- (convertCommand_history this command h), Hrun.
Qed.

(** X12.  For a ready client whose command fetch is answered,
    [getBotCommandsForTopGG] only fetches (it logs nothing) and returns
    one payload per fetched command, in order: the conversion of that
    command, with its id and name, well formed for the application. *)
Theorem batch_has_one_payload_per_command this h app commands :
  application (client this) = Some app →
  commands_fetch world h = Normal commands →
  ∃ batch,
    getBotCommandsForTopGG world this h
    = (Normal batch, [CommandsFetch (Normal commands)])
    ∧ Forall2 (λ command payload,
                 (convertCommandToTopGGFormat this command []).1
                 = Normal (Some payload)
                 ∧ tg_id payload = cmd_id command
                 ∧ tg_name payload = cmd_name command
                 ∧ well_formed_payload (app_id app) payload) commands batch.
Proof.
  intros Hready Hfetch.
  cut (wp (getBotCommandsForTopGG world this) h
         (λ r es, ∃ batch, r = Normal batch
            ∧ es = [CommandsFetch (Normal commands)]
            ∧ Forall2 (λ command payload,
                         (convertCommandToTopGGFormat this command []).1
                         = Normal (Some payload)) commands batch)).
  { unfold wp. destruct (getBotCommandsForTopGG world this h) as [r es]. simpl.
    intros (batch & -> & -> & Hbatch). exists batch. split; [done|].
    eapply Forall2_impl; [exact Hbatch|]. intros command payload Hpayload.
    split; [done|].
    destruct (convertCommand_payload _ _ _ _ Hpayload) as (app' & Happ & ? & ? & ?).
    by simplify_eq. }
  unfold getBotCommandsForTopGG, fetch_commands. rewrite Hready.
  apply wp_try, wp_bind. unfold wp at 1. rewrite Hfetch. cbn [fst snd].
  eapply wp_mono; [by apply (convert_loop_ready this app)|].
  intros r es (batch & -> & -> & Hbatch). by exists batch.
Qed.

(** X13.  [getBotCommandsForTopGG] returns the empty list and logs one
    error when the commands cannot be fetched: without a fetch while
    [client.application] is [null], after the failed fetch otherwise. *)
Theorem batch_is_empty_when_fetch_fails this h :
  (application (client this) = None →
   getBotCommandsForTopGG world this h
   = (Normal [],
      [Log Level.error
         "❌ Error fetching bot commands: Cannot read properties of null (reading 'commands')"]))
  ∧ (∀ e, application (client this) ≠ None →
       commands_fetch world h = Throw e →
       getBotCommandsForTopGG world this h
       = (Normal [],
          [CommandsFetch (Throw e);
           Log Level.error ("❌ Error fetching bot commands: " +:+ message e)])).
Proof.
  split.
  - intros Hnull. apply wp_run_eq.
    unfold getBotCommandsForTopGG, fetch_commands. rewrite Hnull. by wp_go.
  - intros e Hready Hfetch. apply wp_run_eq.
    unfold getBotCommandsForTopGG, fetch_commands.
    destruct (application (client this)); [|done].
    apply wp_try, wp_bind. unfold wp at 1. rewrite Hfetch. cbn [fst snd]. by wp_go.
Qed.

Lemma getBotCommands_payloads this h :
  wp (getBotCommandsForTopGG world this) h
    (λ r es, ∃ batch,
       r = Normal batch
       ∧ directory_posts es = []
       ∧ Forall (λ payload, ∃ command,
                   (convertCommandToTopGGFormat this command []).1
                   = Normal (Some payload)) batch).
Proof.
  unfold getBotCommandsForTopGG, fetch_commands.
  apply wp_try. destruct (application (client this)) as [app|].
  - apply wp_bind. unfold wp at 1. cbn [fst snd].
    destruct (commands_fetch world h) as [commands|e].
    + eapply wp_mono; [apply convert_loop_payloads|].
      intros r es (batch & -> & Hes & Hbatch). cbv beta. exists batch.
      split; [done|]. split; [by read_trace|].
      eapply Forall_impl; [exact Hbatch|]. intros p (c & _ & Hp). by exists c.
    + wp_go. exists []. split; [done|]. split; [by read_trace|constructor].
  - wp_go. exists []. split; [done|]. split; [by read_trace|constructor].
Qed.

Lemma truthy_Some v : truthy v = true → ∃ s, v = Some s ∧ s ≠ "".
Proof.
  destruct v as [s|]; [|done]. simpl. intros Hs. exists s. split; [done|].
  by destruct (String.eqb_spec s "").
Qed.

Lemma publish_request this h u hs body answer :
  AxiosPost u hs body answer ∈ (postCommandsToTopGG world this h).2 →
  u = url
  ∧ (∃ token, commandsToken this = Some token ∧ token ≠ "" ∧ hs = headers token)
  ∧ body ≠ []
  ∧ (getBotCommandsForTopGG world this h).1 = Normal body
  ∧ directory_posts (postCommandsToTopGG world this h).2 = [(u, hs, body, answer)]
  ∧ ∃ app,
      application (client this) = Some app
      ∧ Forall (well_formed_payload (app_id app)) body.
Proof.
  change (wp (postCommandsToTopGG world this) h
    (λ _ es, AxiosPost u hs body answer ∈ es →
       u = url
       ∧ (∃ token, commandsToken this = Some token ∧ token ≠ "" ∧ hs = headers token)
       ∧ body ≠ []
       ∧ (getBotCommandsForTopGG world this h).1 = Normal body
       ∧ directory_posts es = [(u, hs, body, answer)]
       ∧ ∃ app, application (client this) = Some app
           ∧ Forall (well_formed_payload (app_id app)) body)).
  unfold postCommandsToTopGG.
  destruct (truthy (commandsToken this)) eqn:Htoken; cbn [negb].
  2: { wp_go. intros Hin. apply elem_of_directory_posts in Hin.
       read_trace_in Hin. by apply elem_of_nil in Hin. }
  apply truthy_Some in Htoken as (token & Htoken & Hfilled). rewrite Htoken. simpl.
  apply wp_try, wp_bind.
  pose proof (getBotCommands_payloads this h) as Hbatch. unfold wp in Hbatch.
  destruct (getBotCommandsForTopGG world this h) as [r0 es0] eqn:Hrun.
  simpl in Hbatch. destruct Hbatch as (batch & -> & Hquiet & Hbatch).
  eapply wp_eq; [exact Hrun|]. cbv beta iota. wp_go.
  all: intros Hin; apply elem_of_directory_posts in Hin; read_trace_in Hin.
  all: rewrite ?elem_of_nil, ?list_elem_of_singleton in Hin; simplify_eq.
  all: split; [done|]; split; [by exists token|].
  all: assert (batch ≠ []) as Hne
         by (intros ->; simpl in *; discriminate).
  all: split; [done|]; split; [done|]; split; [by read_trace|].
  all: destruct batch as [|payload batch]; [done|].
  all: pose proof Hbatch as Hfirst; apply Forall_cons in Hfirst as [[c Hc] _].
  all: destruct (convertCommand_payload _ _ _ _ Hc) as (app & Happ & _).
  all: exists app; split; [done|].
  all: eapply Forall_impl; [exact Hbatch|].
  all: intros p [c' Hc'].
  all: destruct (convertCommand_payload _ _ _ _ Hc') as (app' & Happ' & Hwf & _).
  all: by simplify_eq.
Qed.

(** X14.  Whatever [postCommandsToTopGG] posts goes to the fixed URL of
    the directory, with the bearer header of a non-empty token and the
    JSON content type; it carries the non-empty batch that
    [getBotCommandsForTopGG] returned, and it is the only POST of the
    call. *)
Theorem publish_request_shape this h u hs body answer :
  AxiosPost u hs body answer ∈ (postCommandsToTopGG world this h).2 →
  u = "https://top.gg/api/v1/projects/@me/commands"
  ∧ (∃ token,
       commandsToken this = Some token ∧ token ≠ ""
       ∧ hs = [("Authorization", "Bearer " +:+ token);
               ("Content-Type", "application/json")])
  ∧ body ≠ []
  ∧ (getBotCommandsForTopGG world this h).1 = Normal body
  ∧ directory_posts (postCommandsToTopGG world this h).2 = [(u, hs, body, answer)].
Proof.
  intros Hin. destruct (publish_request this h u hs body answer Hin)
    as (Hurl & Htoken & Hbody & Hbatch & Hsingle & _).
  done.
Qed.

(** X15.  Every payload that [postCommandsToTopGG] posts has version 1,
    the id of the client's application and a type among 1, 2 and 3; its
    description is empty exactly when the type is not 1, and then it has
    no options; its options are never an empty array, and at every depth
    they have a description and no empty array of choices or options. *)
Theorem published_payloads_are_well_formed this h u hs body answer :
  AxiosPost u hs body answer ∈ (postCommandsToTopGG world this h).2 →
  ∃ app,
    application (client this) = Some app
    ∧ Forall (well_formed_payload (app_id app)) body.
Proof.
  intros Hin. by destruct (publish_request this h u hs body answer Hin)
    as (_ & _ & _ & _ & _ & Hwf).
Qed.

End BatchFacts.

(** * More on the periodic timer *)

Section TimerFacts.
Import PeriodicUpdates Usage.

Lemma fresh_step s a : fresh s → fresh (step s a).
Proof.
  intros [Hrunning Hstored]. destruct a as [| |elapsed].
  - split; simpl.
    + intros handle delay. rewrite lookup_insert. case_decide.
      * intros _. subst. lia.
      * intros Hin. apply Hrunning in Hin. lia.
    + intros handle [= <-]. lia.
  - unfold step, stopPeriodicUpdates.
    destruct (periodicCommandsInterval s) as [stored|] eqn:Hhandle.
    2: { simpl. split; [done|]. by rewrite Hhandle. }
    split; simpl.
    + intros handle delay. rewrite lookup_delete. case_decide; [done|].
      apply Hrunning.
    + apply Hstored.
  - unfold step, interval_elapsed. destruct (_ !! elapsed); simpl; by split.
Qed.

Lemma fresh_run s actions : fresh s → fresh (run s actions).
Proof.
  revert s. induction actions as [|a actions IH]; intros s Hs; [done|].
  apply IH. by apply fresh_step.
Qed.

Lemma fresh_initial first : fresh (initial first).
Proof. split; [|done]. intros handle delay. simpl. by rewrite lookup_empty. Qed.

Lemma publishes_step s a :
  (publishes s ≤ publishes (step s a))%nat
  ∧ (publishes (step s a) ≤ publishes s + elapsed_count [a])%nat.
Proof.
  destruct a as [| |elapsed]; simpl.
  - lia.
  - unfold stopPeriodicUpdates. destruct (periodicCommandsInterval s); simpl; lia.
  - unfold interval_elapsed. destruct (_ !! elapsed); simpl; lia.
Qed.

Lemma elapsed_count_cons a actions :
  elapsed_count (a :: actions) = (elapsed_count [a] + elapsed_count actions)%nat.
Proof. by destruct a. Qed.

(** X16.  The number of periodic publishes never decreases and grows by
    at most one per elapsed interval: starting and stopping never
    publish. *)
Theorem publishes_only_when_intervals_elapse s actions :
  (publishes s ≤ publishes (run s actions))%nat
  ∧ (publishes (run s actions) ≤ publishes s + elapsed_count actions)%nat.
Proof.
  revert s. induction actions as [|a actions IH]; intros s; [simpl; lia|].
  change (run s (a :: actions)) with (run (step s a) actions).
  rewrite elapsed_count_cons.
  destruct (IH (step s a)), (publishes_step s a). lia.
Qed.

Lemma delay_step s a :
  (∀ handle delay, intervals (runtime s) !! handle = Some delay →
     delay = 86400000%Z) →
  ∀ handle delay, intervals (runtime (step s a)) !! handle = Some delay →
    delay = 86400000%Z.
Proof.
  intros Hs handle delay. destruct a as [| |elapsed]; simpl.
  - rewrite lookup_insert. case_decide; [congruence|apply Hs].
  - unfold stopPeriodicUpdates. destruct (periodicCommandsInterval s); simpl.
    + rewrite lookup_delete. case_decide; [done|apply Hs].
    + apply Hs.
  - unfold interval_elapsed. destruct (_ !! elapsed); apply Hs.
Qed.

(** X17.  In every execution from a new object, each running interval
    has the delay of 24 hours (86400000 ms) and a handle handed out during
    the execution, and the handle the object stores is the last one
    handed out. *)
Theorem timer_invariants first actions :
  let s := run (initial first) actions in
  (∀ handle delay, intervals (runtime s) !! handle = Some delay →
     delay = 86400000%Z
     ∧ (first ≤ handle)%positive
     ∧ (handle < next_handle (runtime s))%positive)
  ∧ (∀ handle, periodicCommandsInterval s = Some handle →
       Pos.succ handle = next_handle (runtime s)).
Proof.
  set (inv := λ s : State,
    (∀ handle delay, intervals (runtime s) !! handle = Some delay →
       delay = 86400000%Z ∧ (first ≤ handle)%positive
       ∧ (handle < next_handle (runtime s))%positive)
    ∧ (∀ handle, periodicCommandsInterval s = Some handle →
         Pos.succ handle = next_handle (runtime s))
    ∧ (first ≤ next_handle (runtime s))%positive).
  cut (∀ s, inv s → inv (run s actions)).
  { intros Hrun. destruct (Hrun (initial first)) as (H1 & H2 & _); [|done].
    split; [|split]; simpl; [|done|lia].
    intros handle delay. by rewrite lookup_empty. }
  induction actions as [|a actions IH]; intros s Hs; [done|].
  apply IH. destruct Hs as (Hrunning & Hstored & Hnext).
  destruct a as [| |elapsed].
  - split; [|split]; simpl.
    + intros handle delay. rewrite lookup_insert. case_decide.
      * intros [= <-]. subst. lia.
      * intros Hin. apply Hrunning in Hin. lia.
    + by intros handle [= <-].
    + lia.
  - unfold step, stopPeriodicUpdates.
    destruct (periodicCommandsInterval s) as [stored|] eqn:Hhandle.
    + split; [|split]; simpl; [|done|done].
      intros handle delay. rewrite lookup_delete. case_decide; [done|].
      apply Hrunning.
    + simpl. split; [done|]. split; [|done]. intros handle. by rewrite Hhandle.
  - unfold step, interval_elapsed.
    destruct (_ !! elapsed); exact (conj Hrunning (conj Hstored Hnext)).
Qed.

(** A start adds one timer and stores its handle. *)
Lemma start_adds_a_timer s :
  fresh s →
  size (intervals (runtime (step s Start))) = S (size (intervals (runtime s)))
  ∧ is_Some (intervals (runtime (step s Start)) !! next_handle (runtime s))
  ∧ periodicCommandsInterval (step s Start) = Some (next_handle (runtime s)).
Proof.
  intros [Hrunning _]. simpl. split; [|split; [|done]].
  - apply map_size_insert_None.
    destruct (intervals (runtime s) !! next_handle (runtime s)) eqn:E; [|done].
    apply Hrunning in E. lia.
  - rewrite lookup_insert_eq. by eexists.
Qed.

(** X18.  Starting [n + 1] times in a row and then stopping leaves [n]
    more intervals running than before: every start after the first
    leaks one. *)
Theorem repeated_starts_leak_timers s n :
  fresh s →
  size (intervals (runtime (run s (replicate (S n) Start ++ [Stop]))))
  = (size (intervals (runtime s)) + n)%nat.
Proof.
  intros Hs. rewrite run_app.
  assert (∀ k s, fresh s →
            let s' := run s (replicate (S k) Start) in
            size (intervals (runtime s')) = (size (intervals (runtime s)) + S k)%nat
            ∧ ∃ handle, periodicCommandsInterval s' = Some handle
                ∧ is_Some (intervals (runtime s') !! handle)) as Hstarts.
  { clear. induction k as [|k IH]; intros s Hs.
    - destruct (start_adds_a_timer s Hs) as (Hsize & Hin & Hstored).
      split; [change (run s (replicate 1 Start)) with (step s Start); lia|].
      by eexists.
    - change (run s (replicate (S (S k)) Start))
        with (run (step s Start) (replicate (S k) Start)).
      destruct (IH (step s Start) (fresh_step s Start Hs)) as [Hsize Hlast].
      destruct (start_adds_a_timer s Hs) as (Hone & _ & _).
      split; [cbv zeta in *; lia|done]. }
  destruct (Hstarts n s Hs) as [Hsize (handle & Hstored & [delay Hin])].
  change (run ?s' [Stop]) with (step s' Stop).
  cbv zeta in Hsize.
  unfold step, stopPeriodicUpdates. rewrite Hstored.
  cbn [fst runtime clearInterval intervals].
  rewrite map_size_delete_Some by eauto. rewrite Hsize. lia.
Qed.

(** X19.  If start is never called on a started object, at most one
    interval runs: exactly the stored one after a start, none after a stop
    or before the first start. *)
Theorem disciplined_use_never_leaks first actions :
  disciplined false actions = true →
  let s := run (initial first) actions in
  if started_after false actions
  then ∃ handle,
         periodicCommandsInterval s = Some handle
         ∧ intervals (runtime s) = {[handle := 86400000%Z]}
  else intervals (runtime s) = ∅.
Proof.
  set (inv := λ (started : bool) (s : State),
    if started
    then ∃ handle, periodicCommandsInterval s = Some handle
           ∧ intervals (runtime s) = {[handle := 86400000%Z]}
    else intervals (runtime s) = ∅).
  cut (∀ started s, inv started s → disciplined started actions = true →
         inv (started_after started actions) (run s actions)).
  { intros Hrun Hactions. by apply (Hrun false (initial first)). }
  induction actions as [|a actions IH]; intros started s Hs Hactions; [done|].
  destruct a as [| |elapsed]; simpl in Hactions |- *.
  - apply andb_true_iff in Hactions as [Hstopped Hactions].
    destruct started; [done|]. apply IH; [|done].
    simpl in Hs |- *. eexists. split; [done|]. by rewrite Hs, insert_empty.
  - apply IH; [|done]. simpl. unfold stopPeriodicUpdates.
    destruct started; simpl in Hs.
    + destruct Hs as (handle & -> & Hs). simpl. by rewrite Hs, delete_singleton_eq.
    + destruct (periodicCommandsInterval s); [|done]. simpl.
      by rewrite Hs, delete_empty.
  - apply IH; [|done]. unfold interval_elapsed.
    by destruct (_ !! elapsed).
Qed.

End TimerFacts.

(** * The bot shell *)

Section ShellFacts.
Import Observe Requests Shell.
Context (world : World).

Lemma publish_completes this h :
  ∃ published, (TopGGIntegration.postCommandsToTopGG world this h).1 = Normal published.
Proof.
  change (wp (TopGGIntegration.postCommandsToTopGG world this) h
            (λ r _, ∃ published, r = Normal published)).
  unfold TopGGIntegration.postCommandsToTopGG.
  destruct (truthy _); cbn [negb]; [|wp_go; by eexists].
  apply wp_try, wp_bind.
  eapply wp_mono; [apply getBotCommands_quiet|].
  intros r es [[batch ->] _]. cbv beta. wp_go. all: by eexists.
Qed.

(** X20.  The interval callback never rejects and adds nothing to what
    [postCommandsToTopGG] does: its error line is never logged. *)
Theorem periodic_update_never_rejects this h :
  periodic_update world this h
  = (Normal tt, (TopGGIntegration.postCommandsToTopGG world this h).2).
Proof.
  destruct (publish_completes this h) as [published Hrun].
  unfold periodic_update, try_catch, mbind, async_bind, bind.
  destruct (TopGGIntegration.postCommandsToTopGG world this h) as [r es].
  simpl in Hrun. subst r. simpl. by rewrite app_nil_r.
Qed.

(** X21.  The one-shot callback of the [clientReady] handler never
    rejects and always ends by logging that the initial commands were
    posted, also when [postCommandsToTopGG] returned [false]; its error
    lines, the 401 hint included, are never logged. *)
Theorem initial_publish_always_reports_posted this h :
  initial_publish world this h
  = (Normal tt,
     (TopGGIntegration.postCommandsToTopGG world this h).2
       ++ [Log Level.info "✅ Initial Top.gg commands posted"]).
Proof.
  destruct (publish_completes this h) as [published Hrun].
  unfold initial_publish, try_catch, mbind, async_bind, bind.
  destruct (TopGGIntegration.postCommandsToTopGG world this h) as [r es].
  simpl in Hrun. subst r. done.
Qed.

(** Neither synchronizer throws. *)
Lemma sync_completes client guildId h :
  ∃ count, (CommandSyncer.syncCommands world client guildId h).1 = Normal count.
Proof.
  change (wp (CommandSyncer.syncCommands world client guildId) h
            (λ r _, ∃ count, r = Normal count)).
  unfold_syncers. wp_go. all: by eexists.
Qed.

Lemma bare_sync_completes client guildId h :
  ∃ count, (BareSyncer.syncCommands world client guildId h).1 = Normal count.
Proof.
  change (wp (BareSyncer.syncCommands world client guildId) h
            (λ r _, ∃ count, r = Normal count)).
  unfold_syncers. wp_go. all: by eexists.
Qed.

Lemma bare_sync_requests_route client guildId app h :
  application client = Some app →
  Forall (λ q, q.2 = route_for app guildId)
    (requests (BareSyncer.syncCommands world client guildId h).2).
Proof.
  intros Hready.
  change (wp (BareSyncer.syncCommands world client guildId) h
            (λ _ es, Forall (λ q, q.2 = route_for app guildId) (requests es))).
  unfold_syncers. wp_go.
  all: read_requests; repeat constructor.
Qed.

Lemma clientReady_run syncCommands token client rt h u :
  (∀ c g h', ∃ count, (syncCommands c g h').1 = Normal count) →
  user client = Some u →
  ∃ count,
    (syncCommands (base client) None (h ++ greeting client u)).1 = Normal count
    ∧ clientReady world syncCommands token client rt h
      = (Normal (scheduled token client rt),
         greeting client u
           ++ (syncCommands (base client) None (h ++ greeting client u)).2
           ++ closing count).
Proof.
  intros Hsync Huser.
  destruct (Hsync (base client) None (h ++ greeting client u)) as [count Hcount].
  exists count. split; [exact Hcount|].
  apply wp_run_eq. unfold clientReady. rewrite Huser.
  apply wp_bind, wp_logger. apply wp_bind, wp_logger.
  apply wp_bind, wp_try, wp_bind.
  rewrite <- (app_assoc h [_] [_]).
  change ([?a] ++ [?b]) with [a; b]. fold (greeting client u).
  unfold wp at 1. rewrite Hcount.
  apply wp_logger. cbv beta.
  apply wp_bind, wp_try, wp_bind. unfold wp at 1, start_periodic.
  cbn [PeriodicUpdates.startPeriodicUpdates PeriodicUpdates.setInterval fst snd
       PeriodicUpdates.runtime PeriodicUpdates.publishes].
  apply wp_bind, wp_logger. apply wp_ret. apply wp_ret.
  split; [reflexivity|].
  rewrite ?app_nil_r. by rewrite <- ?app_assoc.
Qed.

(** X22.  With [client.user] set, the [clientReady] handler of either
    file completes normally.  It logs its two greeting lines, runs the
    global sync, logs the count the sync returned and the two start
    lines, and does nothing else: the fallback fetch of its catch block
    never runs.  It leaves a new [TopGGIntegration] object with one
    24-hour interval added to the timers and one 2-second timeout. *)
Theorem ready_handler_run token client rt h u :
  user client = Some u →
  (∃ count,
     (CommandSyncer.syncCommands world (base client) None (h ++ greeting client u)).1
     = Normal count
     ∧ clientReady_index world token client rt h
       = (Normal (scheduled token client rt),
          greeting client u
            ++ (CommandSyncer.syncCommands world (base client) None
                  (h ++ greeting client u)).2
            ++ closing count))
  ∧ (∃ count,
       (BareSyncer.syncCommands world (base client) None (h ++ greeting client u)).1
       = Normal count
       ∧ clientReady_bare world token client rt h
         = (Normal (scheduled token client rt),
            greeting client u
              ++ (BareSyncer.syncCommands world (base client) None
                    (h ++ greeting client u)).2
              ++ closing count)).
Proof.
  intros Huser. split.
  - apply clientReady_run; [apply sync_completes|done].
  - apply clientReady_run; [apply bare_sync_completes|done].
Qed.

(** Before [client.user] is set, the handler rejects at once. *)
Lemma clientReady_without_user syncCommands token client rt h :
  user client = None →
  clientReady world syncCommands token client rt h
  = (Throw (null_property_error "tag"), []).
Proof. intros Huser. unfold clientReady. by rewrite Huser. Qed.

Ltac platform_only_trace :=
  repeat match goal with
  | |- Forall _ (_ ++ _) => apply Forall_app; split
  | |- Forall _ (_ :: _) => constructor
  | |- Forall _ [] => constructor
  | H : Forall is_log ?es |- Forall _ ?es =>
      eapply Forall_impl; [exact H|]; intros ? ?; by left
  | |- platform_only _ => first [by left | right; by eexists]
  end.

Lemma sync_platform_only client guildId h :
  Forall platform_only (CommandSyncer.syncCommands world client guildId h).2.
Proof.
  change (wp (CommandSyncer.syncCommands world client guildId) h
            (λ _ es, Forall platform_only es)).
  unfold_syncers. wp_go. all: platform_only_trace.
Qed.

Lemma bare_sync_platform_only client guildId h :
  Forall platform_only (BareSyncer.syncCommands world client guildId h).2.
Proof.
  change (wp (BareSyncer.syncCommands world client guildId) h
            (λ _ es, Forall platform_only es)).
  unfold_syncers. wp_go. all: platform_only_trace.
Qed.

Lemma platform_only_quiet es :
  Forall platform_only es →
  directory_posts es = [] ∧ ∀ answer, CommandsFetch answer ∉ es.
Proof.
  induction 1 as [|ev es Hev _ [IHposts IHfetch]].
  - split; [done|]. intros answer Hin. by apply elem_of_nil in Hin.
  - split.
    + destruct ev; try done. by destruct Hev as [?|[? ?]].
    + intros answer [Heq|Hin]%elem_of_cons; [|by eapply IHfetch].
      subst ev. by destruct Hev as [?|[? ?]].
Qed.

(** X23.  For a ready client, every REST request of the [clientReady]
    handler of either file goes to the global route of the application,
    and the handler itself neither posts to the directory nor fetches
    through the command manager. *)
Theorem ready_handler_is_global token client rt h u app :
  user client = Some u →
  application (base client) = Some app →
  (let trace := (clientReady_index world token client rt h).2 in
   Forall (λ q, q.2 = applicationCommands (app_id app)) (requests trace)
   ∧ directory_posts trace = []
   ∧ ∀ answer, CommandsFetch answer ∉ trace)
  ∧ (let trace := (clientReady_bare world token client rt h).2 in
     Forall (λ q, q.2 = applicationCommands (app_id app)) (requests trace)
     ∧ directory_posts trace = []
     ∧ ∀ answer, CommandsFetch answer ∉ trace).
Proof.
  intros Huser Hready.
  split; intros trace; subst trace.
  - destruct (clientReady_run (CommandSyncer.syncCommands world) token client rt h u
                sync_completes Huser) as (count & _ & Hrun).
    unfold clientReady_index. rewrite Hrun. cbn [snd]. split.
    + rewrite !requests_app.
      change (requests (greeting client u)) with (@nil (Kind * Route)).
      change (requests (closing count)) with (@nil (Kind * Route)).
      rewrite app_nil_r. apply (sync_requests_route world _ None app _ Hready).
    + apply platform_only_quiet. unfold greeting, closing. apply Forall_app. split; [platform_only_trace|].
      apply Forall_app. split; [apply sync_platform_only|platform_only_trace].
  - destruct (clientReady_run (BareSyncer.syncCommands world) token client rt h u
                bare_sync_completes Huser) as (count & _ & Hrun).
    unfold clientReady_bare. rewrite Hrun. cbn [snd]. split.
    + rewrite !requests_app.
      change (requests (greeting client u)) with (@nil (Kind * Route)).
      change (requests (closing count)) with (@nil (Kind * Route)).
      rewrite app_nil_r. apply (bare_sync_requests_route _ None app _ Hready).
    + apply platform_only_quiet. unfold greeting, closing. apply Forall_app. split; [platform_only_trace|].
      apply Forall_app. split; [apply bare_sync_platform_only|platform_only_trace].
Qed.

End ShellFacts.

(** * The added properties on concrete runs *)

Section MoreEvidence.
Import Observe Merge Requests Shape PeriodicUpdates Usage Shell.

(** A platform that protects its entry point: a fetch, the refused bulk
    overwrite and the two creates. *)
Lemma sync_request_sequence_witness :
  application Example.ready_client ≠ None
  ∧ (requests
       (CommandSyncer.syncCommands Example.protecting Example.ready_client None []).2).*1
    = [Get; Put; Post; Post].
Proof.
  assert (application Example.ready_client ≠ None) as Hready by discriminate.
  split; [exact Hready|].
  destruct (sync_request_sequence Example.protecting Example.ready_client None []
              Hready) as [Hshort|Hlong].
  - vm_compute in Hshort. discriminate.
  - exact Hlong.
Defined.

(** A sync before the client is ready. *)
Lemma sync_without_application_witness :
  application Deployment.unready_client = None
  ∧ (CommandSyncer.syncCommands Example.accepting Deployment.unready_client None []).1
    = Normal 0
  ∧ requests
      (CommandSyncer.syncCommands Example.accepting Deployment.unready_client None []).2
    = [].
Proof.
  split; [reflexivity|].
  apply (sync_without_application Example.accepting Deployment.unready_client None []).
  reflexivity.
Defined.

(** A global sync and a guild sync of the same client. *)
Lemma sync_scope_witness :
  application Example.ready_client = Some Example.app
  ∧ Forall (λ q, q.2 = applicationCommands "1042")
      (requests
         (CommandSyncer.syncCommands Example.accepting Example.ready_client None []).2)
  ∧ Forall (λ q, q.2 = applicationGuildCommands "1042" "guild-9")
      (requests
         (CommandSyncer.syncCommands Example.protecting Example.ready_client
            (Some "guild-9") []).2).
Proof.
  split; [reflexivity|]. split.
  - apply (proj1 (sync_scope Example.accepting Example.ready_client None
                    Example.app [] eq_refl)).
    left. reflexivity.
  - apply (proj2 (sync_scope Example.protecting Example.ready_client (Some "guild-9")
                    Example.app [] eq_refl) "guild-9").
    + reflexivity.
    + discriminate.
Defined.

(** A platform that accepts the bulk overwrite of three commands. *)
Lemma sync_returns_platform_count_witness :
  let run := CommandSyncer.syncCommands Example.accepting Example.ready_client None [] in
  let combined := mergeCommands [Example.entrypoint] CommandSyncer.newCommands in
  RestPut (route_for Example.app None) combined (Normal combined) ∈ run.2
  ∧ run.1 = Normal 3
  ∧ posts run.2 = [].
Proof.
  intros run combined. subst run.
  match goal with |- ?P ∧ _ => assert P as Hput by (vm_compute; find_event) end.
  split; [exact Hput|].
  exact (sync_returns_platform_count Example.accepting Example.ready_client None []
           (route_for Example.app None) combined combined Hput).
Defined.


(** A platform that already has an entry point command and a [ping]. *)
Lemma sync_keeps_names_unique_witness :
  let existing := [Example.entrypoint; Example.old_ping] in
  application Example.ready_client = Some Example.app
  ∧ rest_get Example.protecting [] (route_for Example.app None) = Normal existing
  ∧ ∃ combined answer,
      puts (CommandSyncer.syncCommands Example.protecting Example.ready_client None []).2
      = [(route_for Example.app None, combined, answer)]
      ∧ (∀ d, d ∈ CommandSyncer.newCommands → d ∈ combined)
      ∧ rc_name <$> combined = ["entrypoint"; "ping"; "info"]
      ∧ NoDup (rc_name <$> combined).
Proof.
  intros existing. split; [reflexivity|]. split; [reflexivity|].
  destruct (sync_keeps_names_unique Example.protecting Example.ready_client None
              Example.app [] existing eq_refl eq_refl)
    as (combined & answer & Hputs & Hdesired & Hnames & Hunique).
  exists combined, answer. split; [exact Hputs|]. split; [exact Hdesired|].
  assert (rc_name <$> combined = ["entrypoint"; "ping"; "info"]) as Hlist.
  { rewrite Hnames. vm_compute. reflexivity. }
  split; [exact Hlist|].
  apply Hunique.
  apply (bool_decide_unpack (NoDup (rc_name <$> existing))). vm_compute. exact I.
Defined.

(** A conversion before the client is ready. *)
Lemma conversion_without_application_witness :
  application (TopGGIntegration.client Deployment.unready_bot) = None
  ∧ TopGGIntegration.convertCommandToTopGGFormat Deployment.unready_bot Example.weather []
    = (Normal None,
       [Log Level.error
          "❌ Error converting command weather to Top.gg format: Cannot read properties of null (reading 'id')"]).
Proof.
  split; [reflexivity|].
  exact (conversion_without_application Deployment.unready_bot Example.weather []
           eq_refl).
Defined.

(** The batch of a bot with a slash command and a context-menu command. *)
Lemma batch_has_one_payload_per_command_witness :
  application (TopGGIntegration.client Example.bot) = Some Example.app
  ∧ commands_fetch Example.accepting [] = Normal [Example.weather; Example.report_user]
  ∧ ∃ batch,
      TopGGIntegration.getBotCommandsForTopGG Example.accepting Example.bot []
      = (Normal batch, [CommandsFetch (Normal [Example.weather; Example.report_user])])
      ∧ tg_name <$> batch = ["weather"; "Report user"]
      ∧ Forall (well_formed_payload "1042") batch.
Proof.
  split; [reflexivity|]. split; [reflexivity|].
  destruct (batch_has_one_payload_per_command Example.accepting Example.bot []
              Example.app [Example.weather; Example.report_user] eq_refl eq_refl)
    as (batch & Hrun & Hbatch).
  exists batch. split; [exact Hrun|].
  inversion Hbatch as [|? p1 ? rest1 (_ & _ & Hname1 & Hwf1) Hrest1]; subst.
  inversion Hrest1 as [|? p2 ? rest2 (_ & _ & Hname2 & Hwf2) Hrest2]; subst.
  inversion Hrest2; subst.
  split.
  - simpl. rewrite Hname1, Hname2. reflexivity.
  - constructor; [exact Hwf1|]. constructor; [exact Hwf2|]. constructor.
Defined.

(** The POST of a publish that the directory accepts. *)
Lemma publish_request_shape_witness :
  let run := TopGGIntegration.postCommandsToTopGG Example.accepting Example.bot [] in
  ∃ u hs body answer,
    AxiosPost u hs body answer ∈ run.2
    ∧ u = "https://top.gg/api/v1/projects/@me/commands"
    ∧ hs = [("Authorization", "Bearer topgg-v1-token");
            ("Content-Type", "application/json")]
    ∧ body ≠ []
    ∧ directory_posts run.2 = [(u, hs, body, answer)].
Proof.
  intros run. subst run.
  assert (∃ u hs body answer,
            AxiosPost u hs body answer
              ∈ (TopGGIntegration.postCommandsToTopGG Example.accepting Example.bot []).2)
    as (u & hs & body & answer & Hin)
    by (do 4 eexists; vm_compute; find_event).
  exists u, hs, body, answer. split; [exact Hin|].
  destruct (publish_request_shape Example.accepting Example.bot [] u hs body answer Hin)
    as (Hurl & (token & Htoken & _ & Hheaders) & Hbody & _ & Hsingle).
  split; [exact Hurl|]. split; [|split; [exact Hbody|exact Hsingle]].
  injection Htoken as <-. exact Hheaders.
Defined.

(** The payloads of a publish that the directory refuses. *)
Lemma published_payloads_are_well_formed_witness :
  let run := TopGGIntegration.postCommandsToTopGG Example.protecting Example.bot [] in
  ∃ u hs body answer,
    AxiosPost u hs body answer ∈ run.2
    ∧ Forall (well_formed_payload "1042") body.
Proof.
  intros run. subst run.
  assert (∃ u hs body answer,
            AxiosPost u hs body answer
              ∈ (TopGGIntegration.postCommandsToTopGG Example.protecting Example.bot []).2)
    as (u & hs & body & answer & Hin)
    by (do 4 eexists; vm_compute; find_event).
  exists u, hs, body, answer. split; [exact Hin|].
  destruct (published_payloads_are_well_formed Example.protecting Example.bot []
              u hs body answer Hin) as (app & Happ & Hwf).
  injection Happ as <-. exact Hwf.
Defined.

(** Three starts and a stop leave two timers running. *)
Lemma repeated_starts_leak_timers_witness :
  fresh (initial 1%positive)
  ∧ size (intervals (runtime (run (initial 1%positive) [Start; Start; Start; Stop])))
    = 2.
Proof.
  split; [apply fresh_initial|].
  exact (repeated_starts_leak_timers (initial 1%positive) 2 (fresh_initial 1%positive)).
Defined.

(** Start, a period, stop, start again: one timer runs. *)
Lemma disciplined_use_never_leaks_witness :
  let actions := [Start; Elapsed 1%positive; Stop; Start] in
  disciplined false actions = true
  ∧ ∃ handle,
      periodicCommandsInterval (run (initial 1%positive) actions) = Some handle
      ∧ intervals (runtime (run (initial 1%positive) actions))
        = {[handle := 86400000%Z]}.
Proof.
  intros actions. split; [reflexivity|].
  exact (disciplined_use_never_leaks 1%positive actions eq_refl).
Defined.

(** The handler of a client in three guilds, on an accepting platform. *)
Lemma ready_handler_run_witness :
  user Deployment.shell_client = Some Deployment.logged_in
  ∧ (clientReady_index Example.accepting (Some "topgg-v1-token")
       Deployment.shell_client Deployment.empty_runtime []).1
    = Normal (scheduled (Some "topgg-v1-token") Deployment.shell_client
                Deployment.empty_runtime)
  ∧ Log Level.info "✅ Command sync completed: 3 commands"
      ∈ (clientReady_index Example.accepting (Some "topgg-v1-token")
           Deployment.shell_client Deployment.empty_runtime []).2
  ∧ Log Level.info "✅ Command sync completed: 1 commands"
      ∈ (clientReady_bare Example.accepting (Some "topgg-v1-token")
           Deployment.shell_client Deployment.empty_runtime []).2.
Proof.
  split; [reflexivity|].
  destruct (ready_handler_run Example.accepting (Some "topgg-v1-token")
              Deployment.shell_client Deployment.empty_runtime []
              Deployment.logged_in eq_refl)
    as [(count & Hcount & Hindex) (count' & Hcount' & Hbare)].
  rewrite Hindex, Hbare. cbn [fst snd].
  assert (count = 3) as -> by (vm_compute in Hcount; congruence).
  assert (count' = 1) as -> by (vm_compute in Hcount'; congruence).
  split; [reflexivity|]. split.
  - apply elem_of_app. right. apply elem_of_app. right. left.
  - apply elem_of_app. right. apply elem_of_app. right. left.
Defined.

(** The requests of the same handler go to the global route. *)
Lemma ready_handler_is_global_witness :
  user Deployment.shell_client = Some Deployment.logged_in
  ∧ application (base Deployment.shell_client) = Some Example.app
  ∧ Forall (λ q, q.2 = applicationCommands "1042")
      (requests
         (clientReady_index Example.protecting (Some "topgg-v1-token")
            Deployment.shell_client Deployment.empty_runtime []).2)
  ∧ directory_posts
      (clientReady_index Example.protecting (Some "topgg-v1-token")
         Deployment.shell_client Deployment.empty_runtime []).2
    = [].
Proof.
  split; [reflexivity|]. split; [reflexivity|].
  destruct (ready_handler_is_global Example.protecting (Some "topgg-v1-token")
              Deployment.shell_client Deployment.empty_runtime []
              Deployment.logged_in Example.app eq_refl eq_refl)
    as [(Hroutes & Hquiet & _) _].
  split; [exact Hroutes|exact Hquiet].
Defined.

(** The fallback on a platform that already has a [ping]: one of the two
    creates is answered. *)
Lemma createCommandsIndividually_counts_witness :
  (requests
     (CommandSyncer.createCommandsIndividually Example.protecting Example.ready_client
        None []).2).*1
  = [Post; Post]
  ∧ (CommandSyncer.createCommandsIndividually Example.protecting Example.ready_client
       None []).1
    = Normal 1.
Proof.
  destruct (createCommandsIndividually_counts Example.protecting Example.ready_client
              None [])
    as (created & Hrun & Hcount & _ & _ & Hposts).
  split; [apply Hposts; discriminate|].
  rewrite Hrun. f_equal. rewrite Hcount. vm_compute. reflexivity.
Defined.

(** The variant on an accepting platform and on an unreachable one. *)
Lemma bare_sync_outcomes_witness :
  (BareSyncer.syncCommands Example.accepting Example.ready_client None []).1 = Normal 1
  ∧ (BareSyncer.syncCommands Example.unreachable Example.ready_client None []).1
    = Normal 0.
Proof.
  split.
  - destruct (bare_sync_outcomes Example.accepting Example.ready_client None [])
      as (count & Hrun & _ & _ & Hanswered & _).
    rewrite Hrun. f_equal.
    apply (Hanswered (route_for Example.app None) [Example.entrypoint]
             [Example.entrypoint]).
    vm_compute. find_event.
  - destruct (bare_sync_outcomes Example.unreachable Example.ready_client None [])
      as (count & Hrun & _ & _ & _ & Hfailed).
    rewrite Hrun. f_equal. apply Hfailed.
    intros route body synced Hin. vm_compute in Hin.
    repeat (apply elem_of_cons in Hin as [Hin|Hin]; [discriminate|]).
    by apply elem_of_nil in Hin.
Defined.

(** A bot that is not ready, and a ready bot whose fetch fails. *)
Lemma batch_is_empty_when_fetch_fails_witness :
  TopGGIntegration.getBotCommandsForTopGG Example.accepting Deployment.unready_bot []
  = (Normal [],
     [Log Level.error
        "❌ Error fetching bot commands: Cannot read properties of null (reading 'commands')"])
  ∧ TopGGIntegration.getBotCommandsForTopGG Example.unreachable Example.bot []
    = (Normal [],
       [CommandsFetch (Throw {| message := "connect ETIMEDOUT" |});
        Log Level.error "❌ Error fetching bot commands: connect ETIMEDOUT"]).
Proof.
  split.
  - apply (proj1 (batch_is_empty_when_fetch_fails Example.accepting
                    Deployment.unready_bot [])).
    reflexivity.
  - apply (proj2 (batch_is_empty_when_fetch_fails Example.unreachable Example.bot [])
             {| message := "connect ETIMEDOUT" |}).
    + discriminate.
    + reflexivity.
Defined.

(** Two starts and a stop in a runtime whose next handle is 5: the
    leaked interval. *)
Lemma timer_invariants_witness :
  let s := run (initial 5%positive) [Start; Start; Stop] in
  intervals (runtime s) !! 5%positive = Some 86400000%Z
  ∧ (5 < next_handle (runtime s))%positive
  ∧ periodicCommandsInterval s = Some 6%positive
  ∧ next_handle (runtime s) = 7%positive.
Proof.
  intros s.
  assert (intervals (runtime s) !! 5%positive = Some 86400000%Z) as Hleaked
    by (vm_compute; reflexivity).
  assert (periodicCommandsInterval s = Some 6%positive) as Hstored by reflexivity.
  destruct (timer_invariants 5%positive [Start; Start; Stop]) as [Hrunning Hlast].
  split; [exact Hleaked|]. split; [apply (Hrunning _ _ Hleaked)|].
  split; [exact Hstored|]. symmetry. exact (Hlast _ Hstored).
Defined.

End MoreEvidence.
